(** * PostShowV2: the tagging core of the XBN post-show script

    A shallow embedding of [src/PostShowV2.py]: the [MP3Tagger] class
    (an ID3 tag opened on a file, ten single-value setters, two add
    operations) and the [Chapter] class with its [as_chap] rendering.

    The script drives the [mutagen] library, which is not part of the
    repository.  The part of [mutagen.id3] the script calls is modelled in
    the first sections by its contract: frames, their [HashKey], the
    dict-like [ID3] container with [add], [delall] and [getall], and the
    loaders that raise [MutagenError].  A mutable Python object is a value
    passed in and returned; a call that can raise returns a [PyResult]. *)

From stdpp Require Import base decidable option list strings pretty gmap.

(** ** Python results *)

Inductive PyError : Type :=
  | MutagenError
  | NotImplementedError (msg : string).

Inductive PyResult (A : Type) : Type :=
  | Return (a : A)
  | Raise (e : PyError).
Arguments Return {A} a.
Arguments Raise {A} e.

(** Sequencing: an exception ends the rest of the block. *)
Global Instance PyResult_bind : MBind PyResult := λ A B k r,
  match r with
  | Return a => k a
  | Raise e => Raise e
  end.

(** [for c in cs: out.append(f(c))], stopping at the first exception. *)
Fixpoint for_each {A B : Type} (f : A → PyResult B) (l : list A) : PyResult (list B) :=
  match l with
  | [] => Return []
  | a :: l' => b ← f a; bs ← for_each f l'; Return (b :: bs)
  end.

(** ** mutagen.id3 frames *)

(** The text frames the script writes.  All of them are [TextFrame]
    subclasses whose [HashKey] is the bare frame identifier. *)
Inductive TextID : Type :=
  | TIT2 | TPE1 | TALB | TPOS | TCON | TCOM | TPE2 | TDRC | TRCK | TLAN | TLEN.

Definition text_id (i : TextID) : string :=
  match i with
  | TIT2 => "TIT2" | TPE1 => "TPE1" | TALB => "TALB" | TPOS => "TPOS"
  | TCON => "TCON" | TCOM => "TCOM" | TPE2 => "TPE2" | TDRC => "TDRC"
  | TRCK => "TRCK" | TLAN => "TLAN" | TLEN => "TLEN"
  end.

(** A frame is the arguments it is built from (mutagen's checks of the
    arguments are not modelled).  A text frame built from one Python [str]
    holds the one-element list of that string; [COMM] is a text frame
    too, [USLT] holds one string. *)
#[warning="-register-all"] Inductive Frame : Type :=
  | TextFrame (id : TextID) (text : list string)
  | COMM (lang desc : string) (text : list string)
  | USLT (lang desc : string) (text : string)
  | WXXX (desc url : string)
  | CHAP (element_id : option string) (start_time end_time : Z)
         (sub_frames : list Frame)
  | CTOC (element_id : string) (child_element_ids : list string).

Definition FrameID (f : Frame) : string :=
  match f with
  | TextFrame i _ => text_id i
  | COMM _ _ _ => "COMM"
  | USLT _ _ _ => "USLT"
  | WXXX _ _ => "WXXX"
  | CHAP _ _ _ _ => "CHAP"
  | CTOC _ _ => "CTOC"
  end.

(** ['%s' % x] for an optional string: [None] prints as ["None"]. *)
Definition str_of_optional (o : option string) : string :=
  match o with
  | Some s => s
  | None => "None"
  end.

(** [Frame.HashKey]: ['%s:%s:%s' % (FrameID, desc, lang)] for [COMM] and
    [USLT], ['%s:%s' % (FrameID, ...)] for [WXXX], [CHAP] and [CTOC], the
    bare [FrameID] for text frames. *)
Definition HashKey (f : Frame) : string :=
  match f with
  | TextFrame i _ => text_id i
  | COMM lang desc _ => "COMM:" +:+ desc +:+ ":" +:+ lang
  | USLT lang desc _ => "USLT:" +:+ desc +:+ ":" +:+ lang
  | WXXX desc _ => "WXXX:" +:+ desc
  | CHAP eid _ _ _ => "CHAP:" +:+ str_of_optional eid
  | CTOC eid _ => "CTOC:" +:+ eid
  end.

(** ** The ID3 container

    [mutagen.id3.ID3] is a dict from [HashKey] to frame.  Every frame is
    filed under its own [HashKey], so the container is the list of its
    frames in insertion order and the key of an entry is recomputed from
    the frame. *)
Abbreviation ID3 := (list Frame).

(** [s.startswith(p)] *)
Definition startswith (s p : string) : bool := String.prefix p s.

(** [key in tag] *)
Definition has_key (key : string) (tag : ID3) : bool :=
  bool_decide (key ∈ HashKey <$> tag).

(** [tag[key]] *)
Definition getitem (key : string) (tag : ID3) : option Frame :=
  List.find (λ f, bool_decide (HashKey f = key)) tag.

(** [ID3.delall(key)]: [del tag[key]] when [key in tag] (the entry filed
    under [key]), else delete every entry whose key starts with
    [key + ":"]. *)
Definition delall (key : string) (tag : ID3) : ID3 :=
  if has_key key tag
  then filter (λ f, HashKey f ≠ key) tag
  else filter (λ f, startswith (HashKey f) (key +:+ ":") = false) tag.

(** [ID3.getall(key)]: [[tag[key]]] when [key in tag], else every entry
    whose key starts with [key + ":"]. *)
Definition getall (key : string) (tag : ID3) : list Frame :=
  match getitem key tag with
  | Some f => [f]
  | None => filter (λ f, startswith (HashKey f) (key +:+ ":") = true) tag
  end.

Section Container.

(** [old._merge_frame(new)]: what [add] stores when the key of the new
    frame is already taken.  Releases of mutagen differ here (older ones
    store the new frame, newer ones merge the text of text frames), so
    the policy is a parameter of the container. *)
Variable merge_frame : Frame → Frame → Frame.

(** [ID3.add(frame)]: [tag[frame.HashKey] = frame] for a fresh key (the
    entry goes last); a taken key keeps its place and receives the merge
    of the old and the new frame. *)
Fixpoint add (frame : Frame) (tag : ID3) : ID3 :=
  match tag with
  | [] => [frame]
  | old :: rest =>
      if bool_decide (HashKey old = HashKey frame)
      then merge_frame old frame :: rest
      else old :: add frame rest
  end.

End Container.

(** [Frame._merge_frame]: the new frame replaces the old one. *)
Definition merge_replace (old new : Frame) : Frame := new.

(** [for val in other: if val not in self: self.append(val)] *)
Fixpoint merge_values (self other : list string) : list string :=
  match other with
  | [] => self
  | val :: other' =>
      merge_values (if bool_decide (val ∈ self) then self else self ++ [val]) other'
  end.

(** [TextFrame._merge_frame]: text frames (and [COMM]) take over the
    values of the new frame they do not hold yet; every other frame is
    replaced. *)
Definition merge_text (old new : Frame) : Frame :=
  match old, new with
  | TextFrame i t, TextFrame _ t' => TextFrame i (merge_values t t')
  | COMM lang desc t, COMM _ _ t' => COMM lang desc (merge_values t t')
  | _, _ => new
  end.

(** ** MP3Tagger *)

Record MP3Tagger : Type := { path : string; tag : ID3 }.

Definition with_tag (self : MP3Tagger) (t : ID3) : MP3Tagger :=
  {| path := path self; tag := t |}.

Section Tagger.

Variable merge_frame : Frame → Frame → Frame.

Definition set_title (title : string) (self : MP3Tagger) : MP3Tagger :=
  let t := delall "TIT2" (tag self) in
  with_tag self (add merge_frame (TextFrame TIT2 [title]) t).

Definition set_artist (artist : string) (self : MP3Tagger) : MP3Tagger :=
  let t := delall "TPE1" (tag self) in
  with_tag self (add merge_frame (TextFrame TPE1 [artist]) t).

Definition set_album (album : string) (self : MP3Tagger) : MP3Tagger :=
  let t := delall "TALB" (tag self) in
  with_tag self (add merge_frame (TextFrame TALB [album]) t).

Definition set_season (season : string) (self : MP3Tagger) : MP3Tagger :=
  let t := delall "TPOS" (tag self) in
  with_tag self (add merge_frame (TextFrame TPOS [season]) t).

Definition set_genre (genre : string) (self : MP3Tagger) : MP3Tagger :=
  let t := delall "TCON" (tag self) in
  with_tag self (add merge_frame (TextFrame TCON [genre]) t).

Definition set_composer (composer : string) (self : MP3Tagger) : MP3Tagger :=
  let t := delall "TCOM" (tag self) in
  with_tag self (add merge_frame (TextFrame TCOM [composer]) t).

Definition set_accompaniment (accompaniment : string) (self : MP3Tagger) : MP3Tagger :=
  let t := delall "TPE2" (tag self) in
  with_tag self (add merge_frame (TextFrame TPE2 [accompaniment]) t).

Definition set_date (year : string) (self : MP3Tagger) : MP3Tagger :=
  let t := delall "TDRC" (tag self) in
  with_tag self (add merge_frame (TextFrame TDRC [year]) t).

Definition set_trackno (trackno : string) (self : MP3Tagger) : MP3Tagger :=
  let t := delall "TRCK" (tag self) in
  with_tag self (add merge_frame (TextFrame TRCK [trackno]) t).

Definition set_language (language : string) (self : MP3Tagger) : MP3Tagger :=
  let t := delall "TLAN" (tag self) in
  with_tag self (add merge_frame (TextFrame TLAN [language]) t).

Definition add_comment (lang desc comment : string) (self : MP3Tagger) : MP3Tagger :=
  with_tag self (add merge_frame (COMM lang desc [comment]) (tag self)).

Definition add_lyrics (lang desc lyrics : string) (self : MP3Tagger) : MP3Tagger :=
  with_tag self (add merge_frame (USLT lang desc lyrics) (tag self)).

End Tagger.

(** The ten single-value operations, the frame each one governs, and the
    call of one of them. *)
Inductive Setter : Type :=
  | Title | Artist | Album | Season | Genre | Composer | Accompaniment
  | Date | Trackno | Language.

Definition governs (s : Setter) : TextID :=
  match s with
  | Title => TIT2 | Artist => TPE1 | Album => TALB | Season => TPOS
  | Genre => TCON | Composer => TCOM | Accompaniment => TPE2
  | Date => TDRC | Trackno => TRCK | Language => TLAN
  end.

Definition call_setter (merge_frame : Frame → Frame → Frame) (s : Setter) :
    string → MP3Tagger → MP3Tagger :=
  match s with
  | Title => set_title merge_frame
  | Artist => set_artist merge_frame
  | Album => set_album merge_frame
  | Season => set_season merge_frame
  | Genre => set_genre merge_frame
  | Composer => set_composer merge_frame
  | Accompaniment => set_accompaniment merge_frame
  | Date => set_date merge_frame
  | Trackno => set_trackno merge_frame
  | Language => set_language merge_frame
  end.

(** The frames of one kind held by a tag. *)
Definition frames_of (fid : string) (tag : ID3) : list Frame :=
  filter (λ f, FrameID f = fid) tag.

(** The frames of every other kind. *)
Definition frames_but (fid : string) (tag : ID3) : list Frame :=
  filter (λ f, FrameID f ≠ fid) tag.

(** A merge policy files its result under the key the two frames share. *)
Definition keeps_key (merge_frame : Frame → Frame → Frame) : Prop :=
  ∀ old new, HashKey old = HashKey new → HashKey (merge_frame old new) = HashKey new.

(** ** Chapter *)

Record Chapter : Type := {
  elem_id : option string;
  text : option string;
  start : Z;
  end_ : Z;
  url : option string;
  image : option string;
  indexed : bool
}.

(** [Chapter.__init__(start, end, url, image, text, indexed)] *)
Definition Chapter_init (start end_ : Z) (url image text : option string)
    (indexed : bool) : Chapter :=
  {| elem_id := None; text := text; start := start; end_ := end_;
     url := url; image := image; indexed := indexed |}.

Definition as_chap (self : Chapter) : PyResult Frame :=
  let sub_frames := [] in
  let sub_frames :=
    match text self with
    | Some t => sub_frames ++ [TextFrame TIT2 [t]]
    | None => sub_frames
    end in
  let sub_frames :=
    match url self with
    | Some u => sub_frames ++ [WXXX "chapter url" u]
    | None => sub_frames
    end in
  match image self with
  | Some _ => Raise (NotImplementedError "I haven't done this bit yet.")
  | None => Return (CHAP (elem_id self) (start self) (end_ self) sub_frames)
  end.

(** A call of [as_chap] during a session whose tagger is [tagger]: the
    method reads the chapter only, the tagger comes back as it was. *)
Definition call_as_chap (c : Chapter) (tagger : MP3Tagger) : PyResult Frame * MP3Tagger :=
  (as_chap c, tagger).

(** ** Opening a tagger on a file *)

(** The three float operations of [MP3Tagger.__init__] are Python
    built-ins; they are kept behind an interface. *)
Class PyFloat : Type := {
  float : Type;
  (** [x * n] for an [int] literal [n] *)
  float_mul_int : float → Z → float;
  (** [round(x, 0)] *)
  round0 : float → float;
  (** [str(x)] *)
  str_float : float → string
}.

(** The whole-valued floats of magnitude below [2^53 / 1000]: on them the
    product with [1000] is exact, [round(x, 0)] is the identity and [str]
    prints the digits followed by [".0"]. *)
Definition WholeFloat : PyFloat := {|
  float := Z;
  float_mul_int := Z.mul;
  round0 := λ x, x;
  str_float := λ x, pretty x +:+ ".0"
|}.

Section Open.

Context {F : PyFloat}.
Variable merge_frame : Frame → Frame → Frame.

(** What mutagen finds in a file: the embedded ID3 tag, if the file
    starts with an ID3 header, and the playtime in seconds of the MPEG
    audio stream, if the file holds one. *)
Record File : Type := {
  id3_header : option ID3;
  mpeg_length : option float
}.

(** The files that exist, by path. *)
Variable fs : gmap string File.

(** [mutagen.id3.ID3(path)]: the embedded tag; [MutagenError] for a
    missing file and ([ID3NoHeaderError]) for a file without a tag. *)
Definition ID3_load (path : string) : PyResult ID3 :=
  match fs !! path with
  | None => Raise MutagenError
  | Some file =>
      match id3_header file with
      | Some t => Return t
      | None => Raise MutagenError
      end
  end.

(** [mutagen.id3.ID3FileType(path)]: any existing file loads, its
    [tags] are the embedded tag or [None]. *)
Record ID3FileType : Type := { tags : option ID3 }.

Definition ID3FileType_load (path : string) : PyResult ID3FileType :=
  match fs !! path with
  | None => Raise MutagenError
  | Some file => Return {| tags := id3_header file |}
  end.

(** [ID3FileType.add_tags]: attaches an empty tag, refused when the
    file object has one already. *)
Definition add_tags (self : ID3FileType) : PyResult ID3FileType :=
  match tags self with
  | None => Return {| tags := Some [] |}
  | Some _ => Raise MutagenError
  end.

(** [mutagen.mp3.MP3(path).info.length]: [MutagenError] for a missing file
    and ([HeaderNotFoundError]) for a file that is not MPEG audio. *)
Definition MP3_info_length (path : string) : PyResult float :=
  match fs !! path with
  | None => Raise MutagenError
  | Some file =>
      match mpeg_length file with
      | Some seconds => Return seconds
      | None => Raise MutagenError
      end
  end.

(** [MP3Tagger.__init__(path)] *)
Definition MP3Tagger_init (path : string) : PyResult MP3Tagger :=
  t ← match ID3_load path with
      | Return t => Return t
      | Raise MutagenError =>
          broken ← ID3FileType_load path;
          _ ← add_tags broken;
          (* broken.ID3() builds a new, empty ID3 *)
          Return []
      | Raise e => Raise e
      end;
  seconds ← MP3_info_length path;
  let length := round0 (float_mul_int seconds 1000) in
  Return {| path := path;
            tag := add merge_frame (TextFrame TLEN [str_float length]) t |}.

End Open.

Abbreviation FileSystem := (gmap string File).

(** ** Chapter-set emission *)

(** Modelled from the spec: chapter-set emission (section 4.2, steps 1 to
    4).  [src/PostShowV2.py] renders one chapter ([as_chap]) and leaves
    [elem_id] at [None]; it has no function that numbers the chapters or
    builds a table of contents.  The spec does not name the identifier of
    the table itself: it is the parameter [toc_id]. *)
Definition with_elem_id (c : Chapter) (eid : string) : Chapter :=
  {| elem_id := Some eid; text := text c; start := start c; end_ := end_ c;
     url := url c; image := image c; indexed := indexed c |}.

(** Step 1: ["chp0"], ["chp1"], ... in traversal order. *)
Definition assign_element_ids (chapters : list Chapter) : list Chapter :=
  imap (λ i c, with_elem_id c ("chp" +:+ pretty i)) chapters.

(** Step 3: the element ids of the indexed chapters, in chapter order. *)
Definition table_of_contents (toc_id : string) (chapters : list Chapter) : Frame :=
  CTOC toc_id (omap elem_id (filter (λ c, indexed c = true) chapters)).

(** Steps 2 to 4: one chapter frame per chapter through [as_chap], then
    the table of contents; nothing for an empty sequence. *)
Definition emit_chapters (toc_id : string) (chapters : list Chapter) : PyResult (list Frame) :=
  match chapters with
  | [] => Return []
  | _ =>
      let numbered := assign_element_ids chapters in
      chaps ← for_each as_chap numbered;
      Return (chaps ++ [table_of_contents toc_id numbered])
  end.

(** ** Vocabulary of the statements *)

(** A tagger on ["show.mp3"] whose tag holds no frame. *)
Definition fresh_tagger : MP3Tagger := {| path := "show.mp3"; tag := [] |}.

(** The duration frame of a file that plays for [seconds]. *)
Definition duration_frame {F : PyFloat} (seconds : float) : Frame :=
  TextFrame TLEN [str_float (round0 (float_mul_int seconds 1000))].

(** A file system holding one file, ["show.mp3"]: MPEG audio of 1800
    seconds without an embedded tag. *)
Definition tagless_show : @File WholeFloat :=
  {| id3_header := None; mpeg_length := Some (1800%Z : @float WholeFloat) |}.

Definition one_show : gmap string (@File WholeFloat) := {[ "show.mp3" := tagless_show ]}.

(** The sub-frames of a rendered chapter: the title, if there is a text,
    then the link, if there is a url. *)
Definition chapter_sub_frames (c : Chapter) : list Frame :=
  ((λ t, TextFrame TIT2 [t]) <$> option_list (text c))
  ++ (WXXX "chapter url" <$> option_list (url c)).

(** The positions, counted from [k], of the chapters whose [indexed] flag
    is true, in chapter order. *)
Fixpoint indexed_from (k : nat) (chapters : list Chapter) : list nat :=
  match chapters with
  | [] => []
  | c :: rest =>
      if indexed c then k :: indexed_from (S k) rest else indexed_from (S k) rest
  end.

Definition indexed_positions (chapters : list Chapter) : list nat :=
  indexed_from 0 chapters.

(** The spec's example: [A] and [C] are indexed, [B] is not. *)
Definition three_chapters : list Chapter :=
  [Chapter_init 0 10 None None (Some "A") true;
   Chapter_init 10 20 None None (Some "B") false;
   Chapter_init 20 30 None None (Some "C") true].

(** No two frames of the container share a key. *)
Definition distinct_keys (tag : ID3) : Prop := NoDup (HashKey <$> tag).

(** The identifier of the chapter at position [i]. *)
Definition chp (i : nat) : string := "chp" +:+ pretty i.

(** ** Sessions of single-value calls *)

Global Instance Setter_eq_dec : EqDecision Setter.
Proof. solve_decision. Defined.

(** Single-value operations called one after the other, first call
    first. *)
Definition call_setters (merge_frame : Frame → Frame → Frame)
    (calls : list (Setter * string)) (self : MP3Tagger) : MP3Tagger :=
  foldl (λ self call, call_setter merge_frame call.1 call.2 self) self calls.


(** ["show.mp3"] again, now with an embedded tag that holds a title and a
    duration written earlier. *)
Definition tagged_show : @File WholeFloat :=
  {| id3_header := Some [TextFrame TIT2 ["Old"]; TextFrame TLEN ["1.0"]];
     mpeg_length := Some (1800%Z : @float WholeFloat) |}.

Definition one_tagged_show : gmap string (@File WholeFloat) :=
  {[ "show.mp3" := tagged_show ]}.

(** ** Main: exceptions and the console *)

(** The exceptions of [Main]: [input] raises [EOFError] at the end of the
    input, the checks raise [PostShowError]. *)
Inductive MainError : Type :=
  | EOFError
  | PostShowError (msg : string).

Inductive Outcome (A : Type) : Type :=
  | Finished (a : A)
  | Failed (e : MainError).
Arguments Finished {A} a.
Arguments Failed {A} e.

(** The lines still to be read from standard input, and what was written
    to standard output so far. *)
Record Console : Type := { stdin : list string; stdout : list string }.

(** The line feed and the carriage return followed by a line feed. *)
Definition LF : string := String (Ascii.ascii_of_nat 10) "".
Definition CRLF : string :=
  String (Ascii.ascii_of_nat 13) (String (Ascii.ascii_of_nat 10) "").

(** [sep.join(parts)] *)
Fixpoint join (sep : string) (parts : list string) : string :=
  match parts with
  | [] => ""
  | part :: rest =>
      match rest with
      | [] => part
      | _ => part +:+ sep +:+ join sep rest
      end
  end.

(** [input(prompt)]: writes the prompt, then reads one line without its
    line end; [EOFError] when there is none. *)
Definition input (prompt : string) (c : Console) : Outcome string * Console :=
  match stdin c with
  | [] => (Failed EOFError, {| stdin := []; stdout := stdout c ++ [prompt] |})
  | line :: rest => (Finished line, {| stdin := rest; stdout := stdout c ++ [prompt] |})
  end.

(** [print(s)] *)
Definition print (s : string) (c : Console) : Console :=
  {| stdin := stdin c; stdout := stdout c ++ [s +:+ LF] |}.

(** ** EpisodeMetadata and Main.ask_metadata *)

Record EpisodeMetadata : Type := {
  number : string;
  name : string;
  comment : string
}.

(** The two loops [while x is None: i = input(prompt); if i != "": x = i]
    of [ask_metadata], by recursion on the lines left to read. *)
Fixpoint ask_nonempty (prompt : string) (lines out : list string) : Outcome string * Console :=
  match lines with
  | [] => (Failed EOFError, {| stdin := []; stdout := out ++ [prompt] |})
  | i :: rest =>
      if decide (i ≠ "")
      then (Finished i, {| stdin := rest; stdout := out ++ [prompt] |})
      else ask_nonempty prompt rest (out ++ [prompt])
  end.

(** The loop [while True] of [ask_metadata]: an empty line ends it, any
    other line is appended to [ep_comment], after ["\r\n"] when
    [ep_comment] is not empty. *)
Fixpoint read_comment (ep_comment : string) (lines out : list string) :
    Outcome string * Console :=
  match lines with
  | [] => (Failed EOFError, {| stdin := []; stdout := out ++ ["> "] |})
  | i :: rest =>
      if decide (i = "")
      then (Finished ep_comment, {| stdin := rest; stdout := out ++ ["> "] |})
      else
        let ep_comment :=
          if decide (ep_comment ≠ "") then ep_comment +:+ CRLF else ep_comment in
        read_comment (ep_comment +:+ i) rest (out ++ ["> "])
  end.

Definition comment_header : string :=
  "Episode comment (multiple lines OK, enter empty line to finish):".

Definition ask_metadata (c : Console) : Outcome EpisodeMetadata * Console :=
  match ask_nonempty "Episode number: " (stdin c) (stdout c) with
  | (Failed e, c) => (Failed e, c)
  | (Finished ep_num, c) =>
      match ask_nonempty "Episode name: " (stdin c) (stdout c) with
      | (Failed e, c) => (Failed e, c)
      | (Finished ep_name, c) =>
          let c := print comment_header c in
          match read_comment "" (stdin c) (stdout c) with
          | (Failed e, c) => (Failed e, c)
          | (Finished ep_comment, c) =>
              (Finished {| number := ep_num; name := ep_name; comment := ep_comment |}, c)
          end
      end
  end.

(** Standard input that answers [ask_metadata]: empty lines, the number,
    empty lines, the name, the lines of the comment, an empty line, and
    whatever follows. *)
Definition answers (blanks1 : list string) (num : string) (blanks2 : list string)
    (name : string) (lines rest : list string) : list string :=
  blanks1 ++ num :: blanks2 ++ name :: lines ++ "" :: rest.

(** What [ask_metadata] writes while it reads such an input. *)
Definition prompts (blanks1 blanks2 lines : list string) : list string :=
  replicate (S (length blanks1)) "Episode number: "
  ++ replicate (S (length blanks2)) "Episode name: "
  ++ [comment_header +:+ LF]
  ++ replicate (S (length lines)) "> ".

(** ** configparser and Main.check_config *)

Definition REQUIRED_TEXT_KEYS : list string :=
  ["slug"; "filename"; "bitrate"; "title"; "album"; "artist"; "season"; "language";
   "genre"].

Definition REQUIRED_BOOL_KEYS : list string :=
  ["write_date"; "write_trackno"; "lyrics_equals_comment"].

(** A [ConfigParser] after [read]: the options of [DEFAULT] and the
    sections in file order, each with its own options.  The value of an
    option is the string [section[key]] returns. *)
Record ConfigParser : Type := {
  defaults : gmap string string;
  sections : list (string * gmap string string)
}.

(** [for section in config]: ["DEFAULT"], then the sections. *)
Definition section_names (config : ConfigParser) : list string :=
  "DEFAULT" :: (fst <$> sections config).

(** The options a section has of its own. *)
Definition own_options (config : ConfigParser) (section : string) : gmap string string :=
  match List.find (λ s, bool_decide (s.1 = section)) (sections config) with
  | Some s => s.2
  | None => ∅
  end.

(** [config[section]]: a section shows its own options and, for the
    options it does not set, those of [DEFAULT]. *)
Definition section_proxy (config : ConfigParser) (section : string) : gmap string string :=
  if decide (section = "DEFAULT") then defaults config
  else own_options config section ∪ defaults config.

(** The double quote. *)
Definition DQ : string := String (Ascii.ascii_of_nat 34) "".

Definition missing_key_error (section key : string) : string :=
  "[" +:+ section +:+ "] is missing the required key " +:+ DQ +:+ key +:+ DQ.

Definition boolean_error (section key : string) : string :=
  "[" +:+ section +:+ "] must use Python boolean values (" +:+ DQ +:+ "True" +:+ DQ
  +:+ " or " +:+ DQ +:+ "False" +:+ DQ +:+ ") for the key " +:+ DQ +:+ key +:+ DQ.

(** The errors the first inner loop appends for a section. *)
Definition text_key_errors (section : string) (so : gmap string string) : list string :=
  omap (λ key, match so !! key with
               | None => Some (missing_key_error section key)
               | Some _ => None
               end) REQUIRED_TEXT_KEYS.

(** The errors the second inner loop appends for a section. *)
Definition bool_key_errors (section : string) (so : gmap string string) : list string :=
  omap (λ key, match so !! key with
               | None => Some (missing_key_error section key)
               | Some value =>
                   if bool_decide (value ∈ ["True"; "False"]) then None
                   else Some (boolean_error section key)
               end) REQUIRED_BOOL_KEYS.

(** One turn of the loop over the sections. *)
Definition section_errors (config : ConfigParser) (section : string) : list string :=
  if decide (section = "DEFAULT") then []
  else
    let so := section_proxy config section in
    text_key_errors section so ++ bool_key_errors section so.

(** The list [errors] after the loop. *)
Definition config_errors (config : ConfigParser) : list string :=
  section_names config ≫= section_errors config.

(** [Main.check_config], after [config.read(path)]. *)
Definition check_config (config : ConfigParser) : Outcome ConfigParser :=
  let errors := config_errors config in
  if decide (0 < length errors)
  then Failed (PostShowError (join (";" +:+ LF) errors))
  else Finished config.

(** A section that passes the check: every required key is shown, and the
    boolean keys read [True] or [False]. *)
Definition section_ok (so : gmap string string) : Prop :=
  (∀ key, key ∈ REQUIRED_TEXT_KEYS → is_Some (so !! key))
  ∧ (∀ key, key ∈ REQUIRED_BOOL_KEYS → so !! key = Some "True" ∨ so !! key = Some "False").

Definition config_ok (config : ConfigParser) : Prop :=
  ∀ section, section ∈ section_names config → section ≠ "DEFAULT" →
    section_ok (section_proxy config section).

(** A profile that sets every required key. *)
Definition full_profile : gmap string string :=
  list_to_map
    [("slug", "XBN"); ("filename", "{slug}-{epnum}.{ext}"); ("bitrate", "64");
     ("title", ""); ("album", "XBN"); ("artist", "XBN"); ("season", "1");
     ("language", "eng"); ("genre", "Podcast"); ("write_date", "True");
     ("write_trackno", "False"); ("lyrics_equals_comment", "True")].

(** A config file with the one section [default], complete. *)
Definition one_profile : ConfigParser :=
  {| defaults := ∅; sections := [("default", full_profile)] |}.

(** The same file with an empty title replaced by a title. *)
Definition one_titled_profile : ConfigParser :=
  {| defaults := ∅; sections := [("default", <["title" := "Episode"]> full_profile)] |}.

(** The same file without its bitrate and with [yes] for a boolean. *)
Definition one_broken_profile : ConfigParser :=
  {| defaults := ∅;
     sections := [("default", <["write_date" := "yes"]> (delete "bitrate" full_profile))] |}.

(** ** The operating system and Main.parse_args *)

(** An [OSError]: its [errno] and the text [str(e)]. *)
Record OSError : Type := { errno : Z; strerror : string }.

Definition EEXIST : Z := 17.

(** The two calls [parse_args] makes: [os.path.exists(path)] and
    [os.mkdir(path)], which returns the error it raises, if any, and the
    file system it leaves. *)
Class OS : Type := {
  filesystem : Type;
  os_path_exists : filesystem → string → bool;
  os_mkdir : filesystem → string → option OSError * filesystem
}.

(** A flat file system, the set of the paths that exist: [mkdir] of a path
    that exists raises [EEXIST], any other path is created. *)
Definition FlatOS : OS := {|
  filesystem := gset string;
  os_path_exists := λ fs path, bool_decide (path ∈ fs);
  os_mkdir := λ fs path,
    if bool_decide (path ∈ fs)
    then (Some {| errno := EEXIST; strerror := "[Errno 17] File exists" |}, fs)
    else (None, {[ path ]} ∪ fs)
|}.

(** The [argparse.Namespace] that [parser.parse_args()] returns. *)
Record Namespace : Type := {
  wav : string;
  outdir : string;
  config : string;
  markers : option string;
  profile : string
}.

(** ["...({})...".format(path)] for the three messages. *)
Definition config_missing (path : string) : string :=
  "Configuration file (" +:+ path +:+ ") does not exist".
Definition wav_missing (path : string) : string :=
  "Source WAV file (" +:+ path +:+ ") does not exist".
Definition markers_missing (path : string) : string :=
  "Markers file (" +:+ path +:+ ") does not exist".

(** [Main.parse_args], after [parser.parse_args()]: the checks on the
    parsed arguments.  [os.errno] is the module [errno], as it is up to
    Python 3.6. *)
Definition parse_args {O : OS} (args : Namespace) (fs : filesystem) :
    Outcome Namespace * filesystem :=
  let errors := [] in
  let errors :=
    if negb (os_path_exists fs (config args))
    then errors ++ [config_missing (config args)] else errors in
  let errors :=
    if negb (os_path_exists fs (wav args))
    then errors ++ [wav_missing (wav args)] else errors in
  let errors :=
    match markers args with
    | Some path =>
        if negb (os_path_exists fs path)
        then errors ++ [markers_missing path] else errors
    | None => errors
    end in
  let '(raised, fs) := os_mkdir fs (outdir args) in
  let errors :=
    match raised with
    | Some e => if decide (errno e ≠ EEXIST) then errors ++ [strerror e] else errors
    | None => errors
    end in
  if decide (0 < length errors)
  then (Failed (PostShowError (join (";" +:+ LF) errors)), fs)
  else (Finished args, fs).

(** The arguments pass the checks on a file system. *)
Definition args_ok {O : OS} (args : Namespace) (fs : filesystem) : Prop :=
  os_path_exists fs (config args) = true
  ∧ os_path_exists fs (wav args) = true
  ∧ (∀ path, markers args = Some path → os_path_exists fs path = true)
  ∧ (∀ e, (os_mkdir fs (outdir args)).1 = Some e → errno e = EEXIST).

(** A command line and a file system that holds its files. *)
Definition show_args : Namespace :=
  {| wav := "show.wav"; outdir := "out"; config := "postshow.ini";
     markers := None; profile := "default" |}.

Definition show_files : gset string := {[ "show.wav"; "postshow.ini" ]}.

(** * Properties *)

(** ** Keys of the frames *)

Lemma HashKey_text_id (f : Frame) (i : TextID) :
  HashKey f = text_id i ↔ FrameID f = text_id i.
Proof.
  destruct f; simpl; [done | ..]; destruct i; split; intros H; discriminate H.
Qed.

Lemma no_text_subkey (f : Frame) (i : TextID) :
  startswith (HashKey f) (text_id i +:+ ":") = false.
Proof.
  destruct f as [j| | | | |]; destruct i; try reflexivity; destruct j; reflexivity.
Qed.

(** ** The container *)

Lemma has_key_false (key : string) (tag : ID3) :
  has_key key tag = false ↔ ∀ f, f ∈ tag → HashKey f ≠ key.
Proof.
  unfold has_key. rewrite bool_decide_eq_false, list_elem_of_fmap. split.
  - intros Hno f Hf Hk. apply Hno. by exists f.
  - intros Hno (f & -> & Hf). by apply (Hno f).
Qed.

Lemma filter_none {A : Type} (P : A → Prop) `{!∀ x, Decision (P x)} (l : list A) :
  (∀ x, x ∈ l → ¬ P x) → filter P l = [].
Proof.
  induction l as [|x l IH]; intros Hnone; [done|].
  rewrite filter_cons_False by (apply Hnone; left).
  apply IH. intros y Hy. apply Hnone. by right.
Qed.

Lemma filter_all {A : Type} (P : A → Prop) `{!∀ x, Decision (P x)} (l : list A) :
  (∀ x, x ∈ l → P x) → filter P l = l.
Proof.
  induction l as [|x l IH]; intros Hall; [done|].
  rewrite filter_cons_True by (apply Hall; left).
  f_equal. apply IH. intros y Hy. apply Hall. by right.
Qed.

(** On the key of a text frame [delall] removes the frames of that kind
    and nothing else, whichever branch it takes. *)
Lemma delall_text_id (i : TextID) (tag : ID3) :
  delall (text_id i) tag = frames_but (text_id i) tag.
Proof.
  unfold delall, frames_but. destruct (has_key (text_id i) tag) eqn:Hkey.
  - apply list_filter_iff. intros f. by rewrite HashKey_text_id.
  - rewrite has_key_false in Hkey. rewrite !filter_all; [done | |].
    + intros f Hf. rewrite <- HashKey_text_id. by apply Hkey.
    + intros f _. apply no_text_subkey.
Qed.

Section ContainerFacts.

Variable merge_frame : Frame → Frame → Frame.

(** A frame with a fresh key goes last. *)
Lemma add_fresh (frame : Frame) (tag : ID3) :
  (∀ f, f ∈ tag → HashKey f ≠ HashKey frame) →
  add merge_frame frame tag = tag ++ [frame].
Proof.
  induction tag as [|old rest IH]; intros Hfresh; [done|]. simpl.
  rewrite bool_decide_eq_false_2 by (apply Hfresh; left).
  f_equal. apply IH. intros f Hf. apply Hfresh. by right.
Qed.



(** What a single-value operation leaves in the tag: the frames of the
    other kinds, as they were, then the one new frame. *)
Lemma call_setter_tag (s : Setter) (value : string) (self : MP3Tagger) :
  tag (call_setter merge_frame s value self)
  = frames_but (text_id (governs s)) (tag self) ++ [TextFrame (governs s) [value]].
Proof.
  transitivity (add merge_frame (TextFrame (governs s) [value])
                  (delall (text_id (governs s)) (tag self))).
  { by destruct s. }
  rewrite delall_text_id. apply add_fresh.
  intros f [Hf _]%list_elem_of_filter Hk. apply Hf.
  by apply HashKey_text_id.
Qed.

Lemma call_setter_path (s : Setter) (value : string) (self : MP3Tagger) :
  path (call_setter merge_frame s value self) = path self.
Proof. by destruct s. Qed.

End ContainerFacts.



Lemma frames_but_app (fid : string) (t1 t2 : ID3) :
  frames_but fid (t1 ++ t2) = frames_but fid t1 ++ frames_but fid t2.
Proof. apply filter_app. Qed.


Lemma frames_but_text (i : TextID) (text : list string) :
  frames_but (text_id i) [TextFrame i text] = [].
Proof. unfold frames_but. rewrite filter_cons_False; [done | by intros []]. Qed.


Lemma frames_but_idemp (fid : string) (tag : ID3) :
  frames_but fid (frames_but fid tag) = frames_but fid tag.
Proof.
  unfold frames_but. apply filter_all. by intros f [Hf _]%list_elem_of_filter.
Qed.


Lemma merge_replace_keeps_key : keeps_key merge_replace.
Proof. by intros old new _. Qed.

Lemma merge_text_keeps_key : keeps_key merge_text.
Proof.
  intros old new Hk.
  destruct old, new; simpl in *; try done; try discriminate Hk.
Qed.

(** ** The invariant of the container

    A dict holds one entry per key.  The operations keep it so, and on
    such a tag [getall] on a text-frame identifier returns the frames of
    that kind. *)

Lemma distinct_keys_nil : distinct_keys [].
Proof. constructor. Qed.

Lemma distinct_keys_filter (P : Frame → Prop) `{!∀ f, Decision (P f)} (tag : ID3) :
  distinct_keys tag → distinct_keys (filter P tag).
Proof.
  unfold distinct_keys. induction tag as [|f tag IH]; [done|].
  rewrite fmap_cons, NoDup_cons. intros [Hf Hdup].
  destruct (decide (P f)).
  - rewrite filter_cons_True by done. rewrite fmap_cons, NoDup_cons.
    split; [|by apply IH]. intros (g & Hk & [_ Hg]%list_elem_of_filter)%list_elem_of_fmap.
    apply Hf. apply list_elem_of_fmap. by exists g.
  - rewrite filter_cons_False by done. by apply IH.
Qed.

Lemma distinct_keys_delall (key : string) (tag : ID3) :
  distinct_keys tag → distinct_keys (delall key tag).
Proof.
  intros Hdup. unfold delall.
  destruct (has_key key tag); by apply distinct_keys_filter.
Qed.

Lemma add_elem_key (merge_frame : Frame → Frame → Frame) (frame : Frame)
    (tag : ID3) (key : string) :
  keeps_key merge_frame →
  key ∈ HashKey <$> add merge_frame frame tag →
  key = HashKey frame ∨ key ∈ HashKey <$> tag.
Proof.
  intros Hkeep. induction tag as [|old rest IH]; simpl.
  - intros ->%list_elem_of_singleton. by left.
  - case_bool_decide as Hk; rewrite !fmap_cons, !elem_of_cons.
    + rewrite (Hkeep old frame Hk). intros [->|Hin]; [by left | by right; right].
    + intros [->|Hin]; [by right; left|].
      destruct (IH Hin) as [->|Hrest]; [by left | by right; right].
Qed.

Lemma distinct_keys_add (merge_frame : Frame → Frame → Frame) (frame : Frame) (tag : ID3) :
  keeps_key merge_frame →
  distinct_keys tag → distinct_keys (add merge_frame frame tag).
Proof.
  intros Hkeep. unfold distinct_keys. induction tag as [|old rest IH].
  - intros _. apply NoDup_singleton.
  - rewrite fmap_cons, NoDup_cons. intros [Hold Hdup].
    cbn [add]. case_bool_decide as Hk; rewrite fmap_cons, NoDup_cons.
    + rewrite (Hkeep old frame Hk), <- Hk. done.
    + split; [|by apply IH].
      intros [Heq|Hin]%(add_elem_key merge_frame frame rest _ Hkeep); by auto.
Qed.

(** Every single-value operation keeps the invariant, under any policy:
    it adds to a tag its [delall] has just cleared of the key. *)
Lemma distinct_keys_call_setter (merge_frame : Frame → Frame → Frame)
    (s : Setter) (value : string) (self : MP3Tagger) :
  distinct_keys (tag self) →
  distinct_keys (tag (call_setter merge_frame s value self)).
Proof.
  intros Hdup. rewrite call_setter_tag. unfold distinct_keys.
  rewrite fmap_app. apply NoDup_app. split; [|split].
  - by apply (distinct_keys_filter (λ f, FrameID f ≠ text_id (governs s))).
  - intros key (f & -> & [Hf _]%list_elem_of_filter)%list_elem_of_fmap.
    intros Hk%list_elem_of_singleton. apply Hf. by apply HashKey_text_id.
  - apply NoDup_singleton.
Qed.

Lemma getitem_None (key : string) (tag : ID3) :
  getitem key tag = None ↔ ∀ f, f ∈ tag → HashKey f ≠ key.
Proof.
  unfold getitem. induction tag as [|f tag IH]; simpl.
  - split; [by intros _ f ?%elem_of_nil | done].
  - case_bool_decide as Hk.
    + split; [done|]. intros Hno. destruct (Hno f); [by left | done].
    + rewrite IH. split.
      * intros Hno g [->|Hg]%elem_of_cons; [done | by apply Hno].
      * intros Hno g Hg. apply Hno. by right.
Qed.

(** On a tag with distinct keys [getall] on a text-frame identifier is
    the list of the frames of that kind. *)
Lemma getall_text_id (i : TextID) (tag : ID3) :
  distinct_keys tag → getall (text_id i) tag = frames_of (text_id i) tag.
Proof.
  intros Hdup. unfold getall. destruct (getitem (text_id i) tag) as [f|] eqn:Hget.
  - unfold distinct_keys in Hdup. unfold getitem in Hget. unfold frames_of.
    induction tag as [|g tag IH]; [done|].
    rewrite fmap_cons, NoDup_cons in Hdup. destruct Hdup as [Hg Hdup].
    simpl in Hget. case_bool_decide as Hk.
    + injection Hget as <-. rewrite filter_cons_True by by apply HashKey_text_id.
      f_equal. symmetry. apply filter_none. intros h Hh Hid.
      apply Hg. apply list_elem_of_fmap. exists h. split; [|done].
      rewrite Hk. symmetry. by apply HashKey_text_id.
    + rewrite filter_cons_False by by rewrite <- HashKey_text_id.
      by apply IH.
  - rewrite getitem_None in Hget. unfold frames_of. rewrite !filter_none; [done | |].
    + intros f Hf Hid. apply (Hget f Hf). by apply HashKey_text_id.
    + intros f _. by rewrite no_text_subkey.
Qed.

(** ** Single-value operations *)


(** C10: a single-value operation touches the frames of the one kind it
    governs only: the frames of every other kind are the same before and
    after the call, one by one and in the same order, and the path of the
    tagger is kept. *)
Theorem setter_keeps_other_frames (merge_frame : Frame → Frame → Frame)
    (s : Setter) (self : MP3Tagger) (v : string) :
  frames_but (text_id (governs s)) (tag (call_setter merge_frame s v self))
  = frames_but (text_id (governs s)) (tag self)
  ∧ path (call_setter merge_frame s v self) = path self.
Proof.
  split; [|apply call_setter_path].
  by rewrite call_setter_tag, frames_but_app, frames_but_idemp,
    frames_but_text, app_nil_r.
Qed.

(** A frame of another kind that is in the tag before the call is in the
    tag after it. *)
Lemma setter_keeps_frame (merge_frame : Frame → Frame → Frame)
    (s : Setter) (self : MP3Tagger) (v : string) (f : Frame) :
  f ∈ tag self → FrameID f ≠ text_id (governs s) →
  f ∈ tag (call_setter merge_frame s v self).
Proof.
  intros Hf Hid. rewrite call_setter_tag. apply elem_of_app. left.
  by apply list_elem_of_filter.
Qed.


(** ** Add operations *)





(** Under the replacing policy the later text wins. *)
Example add_comment_replace :
  tag (add_comment merge_replace "eng" "notes" "second"
         (add_comment merge_replace "eng" "notes" "first" fresh_tagger))
  = [COMM "eng" "notes" ["second"]].
Proof. reflexivity. Qed.

(** Under the merging policy the one frame holds both texts. *)
Example add_comment_merge :
  tag (add_comment merge_text "eng" "notes" "second"
         (add_comment merge_text "eng" "notes" "first" fresh_tagger))
  = [COMM "eng" "notes" ["first"; "second"]].
Proof. reflexivity. Qed.

(** Different descriptions give different keys, and two frames. *)
Example add_comment_two_keys :
  tag (add_comment merge_replace "eng" "notes" "second"
         (add_comment merge_replace "eng" "summary" "first" fresh_tagger))
  = [COMM "eng" "summary" ["first"]; COMM "eng" "notes" ["second"]].
Proof. reflexivity. Qed.

Example set_title_twice :
  tag (set_title merge_replace "Episode 2"
         (set_title merge_replace "Episode 1"
            (add_comment merge_replace "eng" "" "hello" fresh_tagger)))
  = [COMM "eng" "" ["hello"]; TextFrame TIT2 ["Episode 2"]].
Proof. reflexivity. Qed.

(** ** Rendering a chapter *)




Example as_chap_bare :
  as_chap (Chapter_init 0 60000 None None None false) = Return (CHAP None 0 60000 []).
Proof. reflexivity. Qed.

Example as_chap_url_only :
  as_chap (Chapter_init 5 9 (Some "https://example.org/") None None true)
  = Return (CHAP None 5 9 [WXXX "chapter url" "https://example.org/"]).
Proof. reflexivity. Qed.

(** C6: for every chapter with an image, [as_chap] raises
    [NotImplementedError] and returns no frame, and a tagger of the session
    is after the call what it was before. *)
Theorem as_chap_image_raises (c : Chapter) (Himage : is_Some (image c)) :
  as_chap c = Raise (NotImplementedError "I haven't done this bit yet.")
  ∧ ∀ tagger : MP3Tagger,
      call_as_chap c tagger
      = (Raise (NotImplementedError "I haven't done this bit yet."), tagger).
Proof.
  destruct Himage as [img Himg].
  assert (as_chap c = Raise (NotImplementedError "I haven't done this bit yet.")) as Hraise.
  { unfold as_chap. by rewrite Himg. }
  split; [done|]. intros tagger. unfold call_as_chap. by rewrite Hraise.
Qed.

Lemma as_chap_image_raises_witness :
  is_Some (image (Chapter_init 0 60000 None (Some "cover.png") (Some "Intro") true))
  ∧ as_chap (Chapter_init 0 60000 None (Some "cover.png") (Some "Intro") true)
    = Raise (NotImplementedError "I haven't done this bit yet.").
Proof.
  assert (is_Some (image (Chapter_init 0 60000 None (Some "cover.png") (Some "Intro") true)))
    as Himage by (exists "cover.png"; reflexivity).
  split; [exact Himage|].
  exact (proj1 (as_chap_image_raises
                  (Chapter_init 0 60000 None (Some "cover.png") (Some "Intro") true)
                  Himage)).
Defined.

(** ** Chapter-set emission *)

(** The frame [as_chap] returns when the guard on [image] is passed. *)
Lemma as_chap_no_image (c : Chapter) :
  image c = None →
  as_chap c = Return (CHAP (elem_id c) (start c) (end_ c) (chapter_sub_frames c)).
Proof.
  intros Himage. unfold as_chap, chapter_sub_frames. rewrite Himage.
  by destruct (text c), (url c).
Qed.


Lemma for_each_as_chap_image (chapters : list Chapter) :
  Exists (λ c, is_Some (image c)) chapters →
  for_each as_chap chapters = Raise (NotImplementedError "I haven't done this bit yet.").
Proof.
  induction chapters as [|c rest IH]; intros Hex; [by apply Exists_nil in Hex|].
  simpl. destruct (image c) as [img|] eqn:Himg.
  - unfold as_chap. by rewrite Himg.
  - apply Exists_cons in Hex as [[img Himg']|Hex]; [congruence|].
    rewrite (as_chap_no_image c Himg). simpl. by rewrite (IH Hex).
Qed.





Lemma elem_of_indexed_from (k i : nat) (chapters : list Chapter) :
  i ∈ indexed_from k chapters
  ↔ ∃ c, k ≤ i ∧ chapters !! (i - k) = Some c ∧ indexed c = true.
Proof.
  revert k. induction chapters as [|c rest IH]; intros k; simpl.
  - split; [by intros ?%elem_of_nil | by intros (c & _ & ? & _)].
  - assert (i ∈ indexed_from (S k) rest
            ↔ ∃ c', S k ≤ i ∧ (c :: rest) !! (i - k) = Some c' ∧ indexed c' = true) as Hrest.
    { rewrite IH. split; intros (c' & Hle & Hc' & Hidx); exists c'; (split; [lia|]);
        (split; [|done]).
      - by replace (i - k) with (S (i - S k)) by lia.
      - by replace (i - k) with (S (i - S k)) in Hc' by lia. }
    destruct (indexed c) eqn:Hidx.
    + rewrite elem_of_cons, Hrest. split.
      * intros [->|(c' & ? & ? & ?)].
        -- exists c. rewrite Nat.sub_diag. eauto.
        -- exists c'. eauto with lia.
      * intros (c' & Hle & Hc' & Hidx'). destruct (decide (i = k)) as [->|Hne]; [by left|].
        right. exists c'. eauto with lia.
    + rewrite Hrest. split.
      * intros (c' & ? & ? & ?). exists c'. eauto with lia.
      * intros (c' & Hle & Hc' & Hidx'). exists c'. split; [|done].
        destruct (decide (i = k)) as [->|Hne]; [|lia].
        rewrite Nat.sub_diag in Hc'. simpl in Hc'. congruence.
Qed.

(** [indexed_positions] lists the positions of the indexed chapters. *)
Lemma elem_of_indexed_positions (i : nat) (chapters : list Chapter) :
  i ∈ indexed_positions chapters ↔ ∃ c, chapters !! i = Some c ∧ indexed c = true.
Proof.
  unfold indexed_positions. rewrite elem_of_indexed_from. rewrite Nat.sub_0_r.
  split; intros (c & H); exists c; intuition lia.
Qed.




Global Instance chp_inj : Inj (=) (=) chp.
Proof.
  intros i j H. unfold chp in H. simpl in H. injection H as H.
  by apply (inj pretty).
Qed.


Example element_ids_of_three :
  elem_id <$> assign_element_ids
                [Chapter_init 0 10 None None None true;
                 Chapter_init 10 20 None None None false;
                 Chapter_init 20 30 None None None true]
  = [Some "chp0"; Some "chp1"; Some "chp2"].
Proof. reflexivity. Qed.




(** All three chapters are rendered, the table lists [A] and [C]. *)
Example emit_three_chapters :
  emit_chapters "toc" three_chapters
  = Return [CHAP (Some "chp0") 0 10 [TextFrame TIT2 ["A"]];
            CHAP (Some "chp1") 10 20 [TextFrame TIT2 ["B"]];
            CHAP (Some "chp2") 20 30 [TextFrame TIT2 ["C"]];
            CTOC "toc" ["chp0"; "chp2"]].
Proof. reflexivity. Qed.

(** ** Opening a tagger *)

Section OpenFacts.

Context {F : PyFloat}.
Variable merge_frame : Frame → Frame → Frame.

(** [__init__] on a missing file: both [ID3] and the fallback raise. *)
Lemma init_missing (fs : FileSystem) (path : string) :
  fs !! path = None → MP3Tagger_init merge_frame fs path = Raise MutagenError.
Proof.
  intros Hfile. unfold MP3Tagger_init, ID3_load, ID3FileType_load. by rewrite Hfile.
Qed.

(** [__init__] on a file that is not MPEG audio: the tag is loaded or
    created, then [MP3] raises. *)
Lemma init_not_audio (fs : FileSystem) (path : string) (file : File) :
  fs !! path = Some file → mpeg_length file = None →
  MP3Tagger_init merge_frame fs path = Raise MutagenError.
Proof.
  intros Hfile Hmpeg.
  unfold MP3Tagger_init, ID3_load, ID3FileType_load, MP3_info_length, add_tags.
  rewrite Hfile, Hmpeg. simpl. by destruct (id3_header file) as [t|].
Qed.

(** [__init__] on an MPEG audio file: the embedded tag, or a new empty
    one, with the duration frame added. *)
Lemma init_audio (fs : FileSystem) (path : string) (file : File) (seconds : float) :
  fs !! path = Some file → mpeg_length file = Some seconds →
  MP3Tagger_init merge_frame fs path
  = Return {| path := path;
              tag := add merge_frame (duration_frame seconds)
                       (default [] (id3_header file)) |}.
Proof.
  intros Hfile Hmpeg.
  unfold MP3Tagger_init, ID3_load, ID3FileType_load, MP3_info_length, add_tags.
  rewrite Hfile, Hmpeg. simpl. by destruct (id3_header file) as [t|].
Qed.

End OpenFacts.



(** C7: opening raises exactly when the path does not exist or the file
    is not MPEG audio; on an existing audio file without an embedded tag
    it returns a tagger whose tag is a new, empty container with the
    duration frame added. *)
Theorem init_raises_iff {F : PyFloat} (merge_frame : Frame → Frame → Frame)
    (fs : FileSystem) (path : string) :
  ((∃ e, MP3Tagger_init merge_frame fs path = Raise e)
   ↔ fs !! path = None ∨ ∃ file, fs !! path = Some file ∧ mpeg_length file = None)
  ∧ ∀ file seconds,
      fs !! path = Some file → id3_header file = None →
      mpeg_length file = Some seconds →
      MP3Tagger_init merge_frame fs path
      = Return {| path := path; tag := add merge_frame (duration_frame seconds) [] |}.
Proof.
  split.
  - destruct (fs !! path) as [file|] eqn:Hfile.
    + destruct (mpeg_length file) as [seconds|] eqn:Hmpeg.
      * rewrite (init_audio merge_frame fs path file seconds Hfile Hmpeg). split.
        -- intros [e He]. discriminate He.
        -- intros [Hno|(file' & Hfile' & Hmpeg')]; [discriminate Hno|].
           congruence.
      * rewrite (init_not_audio merge_frame fs path file Hfile Hmpeg). split; [|by eauto].
        intros _. right. by exists file.
    + rewrite (init_missing merge_frame fs path Hfile). split; [by left | by eauto].
  - intros file seconds Hfile Hnotag Hmpeg.
    rewrite (init_audio merge_frame fs path file seconds Hfile Hmpeg). by rewrite Hnotag.
Qed.

Lemma init_raises_iff_witness :
  MP3Tagger_init merge_replace one_show "show.mp3"
  = Return {| path := "show.mp3"; tag := [TextFrame TLEN ["1800000.0"]] |}
  ∧ ∃ e, MP3Tagger_init merge_replace one_show "missing.mp3" = Raise e.
Proof.
  split.
  - exact (proj2 (init_raises_iff merge_replace one_show "show.mp3")
             tagless_show 1800%Z eq_refl eq_refl eq_refl).
  - apply (proj1 (init_raises_iff merge_replace one_show "missing.mp3")).
    left. reflexivity.
Defined.

(** A file with an embedded tag keeps its frames and gains the duration. *)
Example init_on_tagged_file :
  MP3Tagger_init (F := WholeFloat) merge_replace
    {[ "old.mp3" := {| id3_header := Some [TextFrame TIT2 ["Old"]];
                       mpeg_length := Some (2%Z : @float WholeFloat) |} ]}
    "old.mp3"
  = Return {| path := "old.mp3";
              tag := [TextFrame TIT2 ["Old"]; TextFrame TLEN ["2000.0"]] |}.
Proof. reflexivity. Qed.

(** A file that is not MPEG audio cannot be opened, tag or no tag. *)
Example init_on_text_file :
  MP3Tagger_init (F := WholeFloat) merge_replace
    {[ "notes.txt" := {| id3_header := None; mpeg_length := @None (@float WholeFloat) |} ]}
    "notes.txt"
  = Raise MutagenError.
Proof. reflexivity. Qed.

(** * Further properties of the code *)

(** ** Sessions of single-value calls *)

Lemma text_id_inj (i j : TextID) : text_id i = text_id j → i = j.
Proof. destruct i, j; simpl; intros H; try reflexivity; discriminate H. Qed.

Lemma governs_inj (s1 s2 : Setter) : governs s1 = governs s2 → s1 = s2.
Proof. destruct s1, s2; simpl; intros H; try reflexivity; discriminate H. Qed.

Lemma setter_kinds_differ (s1 s2 : Setter) :
  s1 ≠ s2 → text_id (governs s1) ≠ text_id (governs s2).
Proof. intros Hne Heq. apply Hne. by apply governs_inj, text_id_inj. Qed.


Lemma frames_but_comm (fid fid' : string) (tag : ID3) :
  frames_but fid (frames_but fid' tag) = frames_but fid' (frames_but fid tag).
Proof.
  unfold frames_but. rewrite !list_filter_filter. apply list_filter_iff. tauto.
Qed.


Lemma frames_but_other_text (i j : TextID) (text : list string) :
  text_id j ≠ text_id i → frames_but (text_id i) [TextFrame j text] = [TextFrame j text].
Proof. intros Hne. unfold frames_but. by rewrite filter_cons_True. Qed.




Example last_call_wins_session :
  tag (call_setters merge_replace
         [(Title, "Draft"); (Artist, "XBN"); (Title, "Episode 7")] fresh_tagger)
  = [TextFrame TPE1 ["XBN"]; TextFrame TIT2 ["Episode 7"]].
Proof. reflexivity. Qed.

(** X2: single-value operations on different fields commute up to the
    order of the frames: called in either order they leave the same frames
    in the tag, and the same path. *)
Theorem setters_commute (merge_frame : Frame → Frame → Frame)
    (s1 s2 : Setter) (v1 v2 : string) (self : MP3Tagger) (Hne : s1 ≠ s2) :
  tag (call_setter merge_frame s1 v1 (call_setter merge_frame s2 v2 self))
  ≡ₚ tag (call_setter merge_frame s2 v2 (call_setter merge_frame s1 v1 self))
  ∧ path (call_setter merge_frame s1 v1 (call_setter merge_frame s2 v2 self))
    = path (call_setter merge_frame s2 v2 (call_setter merge_frame s1 v1 self)).
Proof.
  split; [|by rewrite !call_setter_path].
  rewrite !call_setter_tag, !frames_but_app.
  rewrite (frames_but_other_text (governs s1) (governs s2))
    by (apply not_eq_sym; by apply setter_kinds_differ).
  rewrite (frames_but_other_text (governs s2) (governs s1))
    by by apply setter_kinds_differ.
  rewrite (frames_but_comm (text_id (governs s1)) (text_id (governs s2))).
  rewrite <- !(assoc_L (++)). apply Permutation_app_head, Permutation_swap.
Qed.

Lemma setters_commute_witness :
  Title ≠ Artist
  ∧ tag (call_setter merge_replace Title "Episode 7"
           (call_setter merge_replace Artist "XBN" fresh_tagger))
    ≡ₚ tag (call_setter merge_replace Artist "XBN"
              (call_setter merge_replace Title "Episode 7" fresh_tagger)).
Proof.
  assert (Title ≠ Artist) as Hne by discriminate.
  split; [exact Hne|].
  exact (proj1 (setters_commute merge_replace Title Artist "Episode 7" "XBN"
                  fresh_tagger Hne)).
Defined.

(** ** Strings *)

Lemma string_app_cons (a : Ascii.ascii) (s t : string) :
  String a s +:+ t = String a (s +:+ t).
Proof. reflexivity. Qed.

Lemma string_length_app (s t : string) :
  String.length (s +:+ t) = String.length s + String.length t.
Proof.
  induction s as [|a s IH]; [done|]. rewrite string_app_cons. simpl. by rewrite IH.
Qed.

Lemma string_app_assoc (s t u : string) : (s +:+ t) +:+ u = s +:+ t +:+ u.
Proof.
  induction s as [|a s IH]; [done|]. rewrite !string_app_cons. by rewrite IH.
Qed.

Lemma string_app_ne_nil_r (s t : string) : t ≠ "" → s +:+ t ≠ "".
Proof. destruct s; [done|]. rewrite string_app_cons. discriminate. Qed.

(** Two strings split at the same distance from their end agree part by
    part. *)
Lemma string_app_inj_tail (s1 s2 t1 t2 : string) :
  String.length t1 = String.length t2 →
  s1 +:+ t1 = s2 +:+ t2 → s1 = s2 ∧ t1 = t2.
Proof.
  intros Hlen. revert s2.
  induction s1 as [|a s1 IH]; intros [|b s2] Heq; rewrite ?string_app_cons in Heq.
  - done.
  - exfalso. change ("" +:+ t1) with t1 in Heq. rewrite Heq in Hlen. simpl in Hlen.
    rewrite string_length_app in Hlen. lia.
  - exfalso. change ("" +:+ t2) with t2 in Heq. rewrite <- Heq in Hlen. simpl in Hlen.
    rewrite string_length_app in Hlen. lia.
  - injection Heq as -> Heq. destruct (IH s2 Heq) as [-> ->]. done.
Qed.

(** ** Add operations and the other frames *)

Lemma comm_key_not_text (lang desc : string) (text : list string) (i : TextID) :
  HashKey (COMM lang desc text) ≠ text_id i.
Proof. rewrite HashKey_text_id. by destruct i. Qed.

Lemma uslt_key_not_text (lang desc text : string) (i : TextID) :
  HashKey (USLT lang desc text) ≠ text_id i.
Proof. rewrite HashKey_text_id. by destruct i. Qed.

(** [add] of a frame whose key is no text-frame identifier leaves the
    text frames as they are. *)
Lemma add_keeps_text_frames (merge_frame : Frame → Frame → Frame)
    (frame : Frame) (tag : ID3) (i : TextID) :
  keeps_key merge_frame → HashKey frame ≠ text_id i →
  frames_of (text_id i) (add merge_frame frame tag) = frames_of (text_id i) tag.
Proof.
  intros Hkeep Hkey. unfold frames_of.
  assert (FrameID frame ≠ text_id i) as Hid by by rewrite <- HashKey_text_id.
  induction tag as [|old rest IH]; simpl.
  - by rewrite filter_cons_False.
  - case_bool_decide as Hk.
    + rewrite !filter_cons_False; [done | |].
      * rewrite <- HashKey_text_id. congruence.
      * rewrite <- HashKey_text_id, (Hkeep old frame Hk). done.
    + destruct (decide (FrameID old = text_id i)).
      * rewrite !filter_cons_True by done. by rewrite IH.
      * by rewrite !filter_cons_False.
Qed.

(** X3: under a merge policy that keeps keys, [add_comment] and
    [add_lyrics] never change a text field: the title, the artist, ... and
    the duration are after the call the frames they were before. *)
Theorem add_keeps_text_fields (merge_frame : Frame → Frame → Frame)
    (Hkeep : keeps_key merge_frame) (i : TextID) (lang desc text : string)
    (self : MP3Tagger) :
  frames_of (text_id i) (tag (add_comment merge_frame lang desc text self))
  = frames_of (text_id i) (tag self)
  ∧ frames_of (text_id i) (tag (add_lyrics merge_frame lang desc text self))
    = frames_of (text_id i) (tag self).
Proof.
  split; simpl; apply add_keeps_text_frames; try done.
  - apply comm_key_not_text.
  - apply uslt_key_not_text.
Qed.

Lemma add_keeps_text_fields_witness :
  keeps_key merge_text
  ∧ frames_of (text_id TIT2)
      (tag (add_comment merge_text "eng" "notes" "hello"
              (set_title merge_text "Episode 7" fresh_tagger)))
    = frames_of (text_id TIT2) (tag (set_title merge_text "Episode 7" fresh_tagger)).
Proof.
  assert (keeps_key merge_text) as Hkeep.
  { intros old new Hk. destruct old, new; simpl in *; try done; discriminate Hk. }
  split; [exact Hkeep|].
  exact (proj1 (add_keeps_text_fields merge_text Hkeep TIT2 "eng" "notes" "hello"
                  (set_title merge_text "Episode 7" fresh_tagger))).
Defined.

(** X4: the tagger keeps the invariant of a dict: if no two frames of the
    tag share a key before a call, none do after it, for each of the ten
    single-value operations and, under a merge policy that keeps keys, for
    [add_comment] and [add_lyrics]. *)
Theorem operations_keep_distinct_keys (merge_frame : Frame → Frame → Frame)
    (Hkeep : keeps_key merge_frame) (self : MP3Tagger)
    (Hdistinct : distinct_keys (tag self)) :
  (∀ s v, distinct_keys (tag (call_setter merge_frame s v self)))
  ∧ (∀ lang desc text, distinct_keys (tag (add_comment merge_frame lang desc text self)))
  ∧ (∀ lang desc text, distinct_keys (tag (add_lyrics merge_frame lang desc text self))).
Proof.
  split; [|split].
  - intros s v. by apply distinct_keys_call_setter.
  - intros lang desc text. simpl. by apply distinct_keys_add.
  - intros lang desc text. simpl. by apply distinct_keys_add.
Qed.

Lemma operations_keep_distinct_keys_witness :
  keeps_key merge_replace
  ∧ distinct_keys (tag fresh_tagger)
  ∧ distinct_keys (tag (add_comment merge_replace "eng" "notes" "hello" fresh_tagger)).
Proof.
  assert (keeps_key merge_replace) as Hkeep by (intros old new Hk; reflexivity).
  assert (distinct_keys (tag fresh_tagger)) as Hdistinct by constructor.
  split; [exact Hkeep|]. split; [exact Hdistinct|].
  exact (proj1 (proj2 (operations_keep_distinct_keys merge_replace Hkeep fresh_tagger
                         Hdistinct)) "eng" "notes" "hello").
Defined.

(** ** Comments under different keys *)

(** With three-letter languages the key of a comment tells its language
    and its description. *)
Lemma comment_key_inj (lang1 desc1 lang2 desc2 : string) (t1 t2 : list string) :
  String.length lang1 = 3 → String.length lang2 = 3 →
  HashKey (COMM lang1 desc1 t1) = HashKey (COMM lang2 desc2 t2) →
  lang1 = lang2 ∧ desc1 = desc2.
Proof.
  intros Hl1 Hl2 Hk. simpl in Hk. apply (inj (String.app "COMM:")) in Hk.
  apply string_app_inj_tail in Hk as [-> Hk].
  - apply (inj (String.app ":")) in Hk. done.
  - rewrite !string_length_app. simpl. lia.
Qed.

Lemma lyrics_key_inj (lang1 desc1 lang2 desc2 t1 t2 : string) :
  String.length lang1 = 3 → String.length lang2 = 3 →
  HashKey (USLT lang1 desc1 t1) = HashKey (USLT lang2 desc2 t2) →
  lang1 = lang2 ∧ desc1 = desc2.
Proof.
  intros Hl1 Hl2 Hk. simpl in Hk. apply (inj (String.app "USLT:")) in Hk.
  apply string_app_inj_tail in Hk as [-> Hk].
  - apply (inj (String.app ":")) in Hk. done.
  - rewrite !string_length_app. simpl. lia.
Qed.

(** [add] leaves the entries under the other keys as they are. *)
Lemma getitem_add_other (merge_frame : Frame → Frame → Frame)
    (frame : Frame) (tag : ID3) (key : string) :
  keeps_key merge_frame → key ≠ HashKey frame →
  getitem key (add merge_frame frame tag) = getitem key tag.
Proof.
  intros Hkeep Hkey. unfold getitem. induction tag as [|old rest IH]; simpl.
  - by rewrite bool_decide_eq_false_2.
  - case_bool_decide as Hk; simpl.
    + rewrite (Hkeep old frame Hk).
      rewrite !bool_decide_eq_false_2; [done | congruence | congruence].
    + case_bool_decide; [done | apply IH].
Qed.

(** [add] files an entry under the key of its frame. *)
Lemma getitem_add_same (merge_frame : Frame → Frame → Frame) (frame : Frame) (tag : ID3) :
  keeps_key merge_frame → is_Some (getitem (HashKey frame) (add merge_frame frame tag)).
Proof.
  intros Hkeep. unfold getitem. induction tag as [|old rest IH]; simpl.
  - rewrite bool_decide_eq_true_2; by eauto.
  - case_bool_decide as Hk; simpl.
    + rewrite bool_decide_eq_true_2; [by eauto | by apply Hkeep].
    + by rewrite bool_decide_eq_false_2.
Qed.

(** X5: with three-letter languages and a merge policy that keeps keys, a
    comment added under another language or another description leaves an
    earlier comment in the tag as it was: the entry under the earlier
    comment's key is there and is unchanged by the later call.  The same
    for lyrics. *)
Theorem later_comment_keeps_earlier (merge_frame : Frame → Frame → Frame)
    (Hkeep : keeps_key merge_frame)
    (lang1 desc1 text1 lang2 desc2 text2 : string) (self : MP3Tagger)
    (Hlang1 : String.length lang1 = 3) (Hlang2 : String.length lang2 = 3)
    (Hother : (lang1, desc1) ≠ (lang2, desc2)) :
  (is_Some (getitem (HashKey (COMM lang1 desc1 [text1]))
              (tag (add_comment merge_frame lang1 desc1 text1 self)))
   ∧ getitem (HashKey (COMM lang1 desc1 [text1]))
       (tag (add_comment merge_frame lang2 desc2 text2
               (add_comment merge_frame lang1 desc1 text1 self)))
     = getitem (HashKey (COMM lang1 desc1 [text1]))
         (tag (add_comment merge_frame lang1 desc1 text1 self)))
  ∧ (is_Some (getitem (HashKey (USLT lang1 desc1 text1))
                (tag (add_lyrics merge_frame lang1 desc1 text1 self)))
     ∧ getitem (HashKey (USLT lang1 desc1 text1))
         (tag (add_lyrics merge_frame lang2 desc2 text2
                 (add_lyrics merge_frame lang1 desc1 text1 self)))
       = getitem (HashKey (USLT lang1 desc1 text1))
           (tag (add_lyrics merge_frame lang1 desc1 text1 self))).
Proof.
  split; (split; [by apply getitem_add_same|]); apply getitem_add_other; try done.
  - intros Hk. apply Hother.
    by destruct (comment_key_inj _ _ _ _ _ _ Hlang1 Hlang2 Hk) as [-> ->].
  - intros Hk. apply Hother.
    by destruct (lyrics_key_inj _ _ _ _ _ _ Hlang1 Hlang2 Hk) as [-> ->].
Qed.

Lemma later_comment_keeps_earlier_witness :
  keeps_key merge_replace
  ∧ String.length "eng" = 3 ∧ String.length "deu" = 3
  ∧ ("eng", "notes") ≠ ("deu", "notes")
  ∧ getitem (HashKey (COMM "eng" "notes" ["hello"]))
      (tag (add_comment merge_replace "deu" "notes" "hallo"
              (add_comment merge_replace "eng" "notes" "hello" fresh_tagger)))
    = getitem (HashKey (COMM "eng" "notes" ["hello"]))
        (tag (add_comment merge_replace "eng" "notes" "hello" fresh_tagger)).
Proof.
  assert (keeps_key merge_replace) as Hkeep by (intros old new Hk; reflexivity).
  assert (("eng", "notes") ≠ ("deu", "notes")) as Hother by discriminate.
  split; [exact Hkeep|]. split; [reflexivity|]. split; [reflexivity|].
  split; [exact Hother|].
  exact (proj2 (proj1 (later_comment_keeps_earlier merge_replace Hkeep
                         "eng" "notes" "hello" "deu" "notes" "hallo" fresh_tagger
                         eq_refl eq_refl Hother))).
Defined.

(** Without the three letters two different pairs can meet in one key:
    the later comment then replaces the earlier one. *)
Example comment_keys_collide :
  tag (add_comment merge_replace "c" "a:b" "second"
         (add_comment merge_replace "b:c" "a" "first" fresh_tagger))
  = [COMM "c" "a:b" ["second"]].
Proof. reflexivity. Qed.

(** ** Opening a file that has a tag *)

(** [add] of a text frame leaves the frames of the other kinds as they
    are. *)
Lemma add_text_keeps_other_kinds (merge_frame : Frame → Frame → Frame)
    (i : TextID) (text : list string) (tag : ID3) :
  keeps_key merge_frame →
  frames_but (text_id i) (add merge_frame (TextFrame i text) tag)
  = frames_but (text_id i) tag.
Proof.
  intros Hkeep. unfold frames_but. induction tag as [|old rest IH]; simpl.
  - rewrite filter_cons_False; [done | by intros []].
  - case_bool_decide as Hk.
    + rewrite !filter_cons_False; [done | |].
      * intros Hid. apply Hid. by apply HashKey_text_id.
      * intros Hid. apply Hid. apply HashKey_text_id.
        by rewrite (Hkeep old (TextFrame i text) Hk).
    + destruct (decide (FrameID old ≠ text_id i)).
      * rewrite !filter_cons_True by done. by rewrite IH.
      * by rewrite !filter_cons_False.
Qed.

(** On a tag with distinct keys, [add] of a text frame leaves one frame
    of its kind. *)
Lemma add_text_one_frame (merge_frame : Frame → Frame → Frame)
    (i : TextID) (text : list string) (tag : ID3) :
  keeps_key merge_frame → distinct_keys tag →
  length (frames_of (text_id i) (add merge_frame (TextFrame i text) tag)) = 1.
Proof.
  intros Hkeep. unfold distinct_keys, frames_of.
  induction tag as [|old rest IH]; simpl.
  - intros _. by rewrite filter_cons_True.
  - rewrite NoDup_cons. intros [Hold Hdup]. case_bool_decide as Hk.
    + rewrite filter_cons_True
        by (apply HashKey_text_id; by rewrite (Hkeep old (TextFrame i text) Hk)).
      rewrite filter_none; [done|]. intros f Hf Hid. apply Hold.
      apply list_elem_of_fmap. exists f. split; [|done].
      rewrite Hk. symmetry. by apply HashKey_text_id.
    + rewrite filter_cons_False by (by rewrite <- HashKey_text_id).
      by apply IH.
Qed.

(** Under the replacing policy that one frame is the new one. *)
Lemma add_text_replaces (merge_frame : Frame → Frame → Frame)
    (i : TextID) (text : list string) (tag : ID3) :
  (∀ old new, merge_frame old new = new) → distinct_keys tag →
  frames_of (text_id i) (add merge_frame (TextFrame i text) tag) = [TextFrame i text].
Proof.
  intros Hreplace. unfold distinct_keys, frames_of.
  induction tag as [|old rest IH]; simpl.
  - intros _. by rewrite filter_cons_True.
  - rewrite NoDup_cons. intros [Hold Hdup]. case_bool_decide as Hk.
    + rewrite Hreplace. rewrite filter_cons_True by done.
      rewrite filter_none; [done|]. intros f Hf Hid. apply Hold.
      apply list_elem_of_fmap. exists f. split; [|done].
      rewrite Hk. symmetry. by apply HashKey_text_id.
    + rewrite filter_cons_False by (by rewrite <- HashKey_text_id).
      by apply IH.
Qed.

(** X6: opening a tagger on an audio file whose embedded tag has distinct
    keys keeps every embedded frame that is no duration frame, in place,
    and leaves exactly one duration frame and distinct keys, under every
    merge policy that keeps keys; under the replacing policy the duration
    frame is the new one, whatever duration the file carried. *)
Theorem reopen_keeps_frames {F : PyFloat} (merge_frame : Frame → Frame → Frame)
    (Hkeep : keeps_key merge_frame)
    (fs : FileSystem) (path : string) (file : File) (embedded : ID3) (seconds : float)
    (Hfile : fs !! path = Some file) (Htag : id3_header file = Some embedded)
    (Hmpeg : mpeg_length file = Some seconds) (Hdistinct : distinct_keys embedded) :
  ∃ tagger,
    MP3Tagger_init merge_frame fs path = Return tagger
    ∧ frames_but "TLEN" (tag tagger) = frames_but "TLEN" embedded
    ∧ length (frames_of "TLEN" (tag tagger)) = 1
    ∧ distinct_keys (tag tagger)
    ∧ ((∀ old new, merge_frame old new = new) →
       frames_of "TLEN" (tag tagger) = [duration_frame seconds]).
Proof.
  eexists. split.
  { rewrite (init_audio merge_frame fs path file seconds Hfile Hmpeg).
    rewrite Htag. reflexivity. }
  cbn [tag default from_option]. split; [|split; [|split]].
  - by apply (add_text_keeps_other_kinds merge_frame TLEN).
  - by apply (add_text_one_frame merge_frame TLEN).
  - by apply distinct_keys_add.
  - intros Hreplace. by apply (add_text_replaces merge_frame TLEN).
Qed.

Lemma reopen_keeps_frames_witness :
  keeps_key merge_replace
  ∧ one_tagged_show !! "show.mp3" = Some tagged_show
  ∧ id3_header tagged_show = Some [TextFrame TIT2 ["Old"]; TextFrame TLEN ["1.0"]]
  ∧ mpeg_length tagged_show = Some 1800%Z
  ∧ distinct_keys [TextFrame TIT2 ["Old"]; TextFrame TLEN ["1.0"]]
  ∧ ∃ tagger,
      MP3Tagger_init merge_replace one_tagged_show "show.mp3" = Return tagger
      ∧ frames_but "TLEN" (tag tagger) = [TextFrame TIT2 ["Old"]]
      ∧ frames_of "TLEN" (tag tagger) = [TextFrame TLEN ["1800000.0"]].
Proof.
  assert (keeps_key merge_replace) as Hkeep by (intros old new Hk; reflexivity).
  assert (distinct_keys [TextFrame TIT2 ["Old"]; TextFrame TLEN ["1.0"]]) as Hdistinct
    by (apply (bool_decide_unpack _); reflexivity).
  split; [exact Hkeep|]. split; [reflexivity|]. split; [reflexivity|].
  split; [reflexivity|]. split; [exact Hdistinct|].
  destruct (reopen_keeps_frames merge_replace Hkeep one_tagged_show "show.mp3"
              tagged_show [TextFrame TIT2 ["Old"]; TextFrame TLEN ["1.0"]] 1800%Z
              eq_refl eq_refl eq_refl Hdistinct)
    as (tagger & Hinit & Hbut & _ & _ & Hnew).
  exists tagger. split; [exact Hinit|]. split; [exact Hbut|].
  exact (Hnew (λ old new, eq_refl)).
Defined.

(** Under the merging policy the duration the file carried stays first in
    the frame. *)
Example reopen_merges_duration :
  MP3Tagger_init merge_text one_tagged_show "show.mp3"
  = Return {| path := "show.mp3";
              tag := [TextFrame TIT2 ["Old"]; TextFrame TLEN ["1.0"; "1800000.0"]] |}.
Proof. reflexivity. Qed.

(** ** What a rendered chapter tells *)




(** ** Main.ask_metadata *)

(** The loop on the lines is the loop on [input]. *)
Lemma ask_nonempty_loop (prompt : string) (c : Console) :
  ask_nonempty prompt (stdin c) (stdout c)
  = match input prompt c with
    | (Failed e, c') => (Failed e, c')
    | (Finished i, c') =>
        if decide (i ≠ "") then (Finished i, c')
        else ask_nonempty prompt (stdin c') (stdout c')
    end.
Proof. unfold input. destruct (stdin c) as [|i rest]; reflexivity. Qed.

Lemma read_comment_loop (ep_comment : string) (c : Console) :
  read_comment ep_comment (stdin c) (stdout c)
  = match input "> " c with
    | (Failed e, c') => (Failed e, c')
    | (Finished i, c') =>
        if decide (i = "") then (Finished ep_comment, c')
        else read_comment
               ((if decide (ep_comment ≠ "") then ep_comment +:+ CRLF else ep_comment) +:+ i)
               (stdin c') (stdout c')
    end.
Proof. unfold input. destruct (stdin c) as [|i rest]; reflexivity. Qed.

Lemma replicate_S_snoc {A : Type} (n : nat) (x : A) (l : list A) :
  (l ++ [x]) ++ replicate n x = l ++ replicate (S n) x.
Proof. by rewrite <- (assoc_L (++)). Qed.

Lemma ask_nonempty_answer (prompt : string) (blanks : list string) (i : string)
    (rest out : list string) :
  Forall (λ b, b = "") blanks → i ≠ "" →
  ask_nonempty prompt (blanks ++ i :: rest) out
  = (Finished i, {| stdin := rest; stdout := out ++ replicate (S (length blanks)) prompt |}).
Proof.
  intros Hblanks Hi. revert out.
  induction Hblanks as [|b blanks -> _ IH]; intros out; simpl.
  - by rewrite decide_True.
  - rewrite IH. by rewrite replicate_S_snoc.
Qed.

Lemma ask_nonempty_inv (prompt : string) (lines out : list string) (i : string)
    (c' : Console) :
  ask_nonempty prompt lines out = (Finished i, c') →
  ∃ blanks,
    lines = blanks ++ i :: stdin c'
    ∧ Forall (λ b, b = "") blanks ∧ i ≠ ""
    ∧ stdout c' = out ++ replicate (S (length blanks)) prompt.
Proof.
  revert out. induction lines as [|l lines IH]; intros out; simpl; [done|].
  destruct (decide (l ≠ "")) as [Hl|Hl].
  - intros [= <- <-]. by exists [].
  - apply dec_stable in Hl as ->.
    intros (blanks & -> & Hblanks & Hi & Hout)%IH.
    exists ("" :: blanks). simpl. split; [done|]. split; [by constructor|].
    split; [done|]. rewrite Hout. by rewrite replicate_S_snoc.
Qed.

Lemma ask_nonempty_fail (prompt : string) (lines out : list string) (e : MainError)
    (c' : Console) :
  ask_nonempty prompt lines out = (Failed e, c') → e = EOFError ∧ stdin c' = [].
Proof.
  revert out. induction lines as [|l lines IH]; intros out; simpl.
  - by intros [= <- <-].
  - destruct (decide (l ≠ "")); [done | apply IH].
Qed.

(** The parts the comment read so far stands for. *)
Lemma join_cons_cons (sep a b : string) (l : list string) :
  join sep (a :: b :: l) = a +:+ sep +:+ join sep (b :: l).
Proof. reflexivity. Qed.

Lemma join_append_line (acc i : string) (lines : list string) :
  acc ≠ "" →
  join CRLF (((acc +:+ CRLF) +:+ i) :: lines) = join CRLF (acc :: i :: lines).
Proof.
  intros _. rewrite (join_cons_cons CRLF acc i lines). destruct lines as [|l lines].
  - simpl. by rewrite string_app_assoc.
  - rewrite !join_cons_cons. by rewrite !string_app_assoc.
Qed.

Lemma read_comment_answer (acc : string) (lines rest out : list string) :
  Forall (λ l, l ≠ "") lines →
  read_comment acc (lines ++ "" :: rest) out
  = (Finished (join CRLF ((if decide (acc = "") then [] else [acc]) ++ lines)),
     {| stdin := rest; stdout := out ++ replicate (S (length lines)) "> " |}).
Proof.
  intros Hlines. revert acc out.
  induction Hlines as [|i lines Hi _ IH]; intros acc out; simpl.
  - by destruct (decide (acc = "")) as [->|].
  - rewrite decide_False by done. rewrite IH, replicate_S_snoc. do 2 f_equal.
    destruct (decide (acc = "")) as [->|Hacc].
    + simpl. change ("" +:+ i) with i. by rewrite decide_False.
    + destruct (decide (acc ≠ "")) as [_|Hn]; [|by destruct Hn].
      rewrite decide_False by (by apply string_app_ne_nil_r).
      by apply join_append_line.
Qed.

Lemma read_comment_inv (acc : string) (lines out : list string) (ep_comment : string)
    (c' : Console) :
  read_comment acc lines out = (Finished ep_comment, c') →
  ∃ read,
    lines = read ++ "" :: stdin c'
    ∧ Forall (λ l, l ≠ "") read
    ∧ ep_comment = join CRLF ((if decide (acc = "") then [] else [acc]) ++ read)
    ∧ stdout c' = out ++ replicate (S (length read)) "> ".
Proof.
  revert acc out. induction lines as [|i lines IH]; intros acc out; simpl; [done|].
  destruct (decide (i = "")) as [->|Hi].
  - intros [= <- <-]. exists []. simpl. repeat split; try done.
    by destruct (decide (acc = "")) as [->|].
  - intros (read & -> & Hread & -> & Hout)%IH.
    exists (i :: read). simpl. split; [done|]. split; [by constructor|].
    split; [|rewrite Hout; by rewrite replicate_S_snoc].
    destruct (decide (acc = "")) as [->|Hacc].
    + simpl. change ("" +:+ i) with i. by rewrite decide_False.
    + destruct (decide (acc ≠ "")) as [_|Hn]; [|by destruct Hn].
      rewrite decide_False by (by apply string_app_ne_nil_r).
      by apply join_append_line.
Qed.

Lemma read_comment_fail (acc : string) (lines out : list string) (e : MainError)
    (c' : Console) :
  read_comment acc lines out = (Failed e, c') → e = EOFError ∧ stdin c' = [].
Proof.
  revert acc out. induction lines as [|l lines IH]; intros acc out; simpl.
  - by intros [= <- <-].
  - destruct (decide (l = "")); [done | apply IH].
Qed.

(** X8: on an input of empty lines, a number, empty lines, a name, the
    non-empty lines of a comment and an empty line, [ask_metadata] returns
    the number, the name and the comment lines joined by carriage return
    and line feed; it leaves what follows the empty line unread and has
    written one prompt per line read, after the header of the comment. *)
Theorem ask_metadata_answers (blanks1 blanks2 lines rest out : list string)
    (num name : string)
    (Hblanks1 : Forall (λ b, b = "") blanks1) (Hnum : num ≠ "")
    (Hblanks2 : Forall (λ b, b = "") blanks2) (Hname : name ≠ "")
    (Hlines : Forall (λ l, l ≠ "") lines) :
  ask_metadata {| stdin := answers blanks1 num blanks2 name lines rest; stdout := out |}
  = (Finished {| number := num; name := name; comment := join CRLF lines |},
     {| stdin := rest; stdout := out ++ prompts blanks1 blanks2 lines |}).
Proof.
  unfold ask_metadata, answers, prompts. cbn [stdin stdout].
  rewrite (ask_nonempty_answer _ blanks1 num _ _ Hblanks1 Hnum). cbn [stdin stdout].
  rewrite (ask_nonempty_answer _ blanks2 name _ _ Hblanks2 Hname).
  unfold print. cbn [stdin stdout].
  rewrite (read_comment_answer "" lines rest _ Hlines).
  rewrite decide_True by done. by rewrite <- !(assoc_L (++)).
Qed.

Lemma ask_metadata_answers_witness :
  Forall (λ b, b = "") [""] ∧ "7" ≠ ""
  ∧ Forall (λ b, b = "") (@nil string) ∧ "Pilot" ≠ ""
  ∧ Forall (λ l, l ≠ "") ["first line"; "second line"]
  ∧ ask_metadata
      {| stdin := [""; "7"; "Pilot"; "first line"; "second line"; ""; "unread"];
         stdout := [] |}
    = (Finished {| number := "7"; name := "Pilot";
                   comment := "first line" +:+ CRLF +:+ "second line" |},
       {| stdin := ["unread"];
          stdout := ["Episode number: "; "Episode number: "; "Episode name: ";
                     comment_header +:+ LF; "> "; "> "; "> "] |}).
Proof.
  assert (Forall (λ b, b = "") [""]) as H1 by (repeat constructor).
  assert ("7" ≠ "") as H2 by discriminate.
  assert (Forall (λ b, b = "") (@nil string)) as H3 by constructor.
  assert ("Pilot" ≠ "") as H4 by discriminate.
  assert (Forall (λ l, l ≠ "") ["first line"; "second line"]) as H5
    by (repeat constructor; discriminate).
  split; [exact H1|]. split; [exact H2|]. split; [exact H3|]. split; [exact H4|].
  split; [exact H5|].
  exact (ask_metadata_answers [""] [] ["first line"; "second line"] ["unread"] []
           "7" "Pilot" H1 H2 H3 H4 H5).
Defined.

(** X9: whenever [ask_metadata] returns, the number and the name are not
    empty, the input it read was empty lines, the number, empty lines, the
    name, non-empty lines and one empty line, the comment is those
    non-empty lines joined by carriage return and line feed, and the input
    after that empty line is left unread. *)
Theorem ask_metadata_returned (c c' : Console) (m : EpisodeMetadata)
    (Hreturn : ask_metadata c = (Finished m, c')) :
  number m ≠ "" ∧ name m ≠ ""
  ∧ ∃ blanks1 blanks2 lines,
      stdin c = answers blanks1 (number m) blanks2 (name m) lines (stdin c')
      ∧ Forall (λ b, b = "") blanks1 ∧ Forall (λ b, b = "") blanks2
      ∧ Forall (λ l, l ≠ "") lines
      ∧ comment m = join CRLF lines
      ∧ stdout c' = stdout c ++ prompts blanks1 blanks2 lines.
Proof.
  unfold ask_metadata in Hreturn.
  destruct (ask_nonempty "Episode number: " (stdin c) (stdout c))
    as [[ep_num|e] c1] eqn:Hnum; [|discriminate Hreturn].
  destruct (ask_nonempty "Episode name: " (stdin c1) (stdout c1))
    as [[ep_name|e] c2] eqn:Hname; [|discriminate Hreturn].
  destruct (read_comment "" (stdin (print comment_header c2))
              (stdout (print comment_header c2)))
    as [[ep_comment|e] c3] eqn:Hcomment; [|discriminate Hreturn].
  injection Hreturn as <- <-. cbn [number name comment].
  apply ask_nonempty_inv in Hnum as (blanks1 & Hin1 & Hblanks1 & Hnum & Hout1).
  apply ask_nonempty_inv in Hname as (blanks2 & Hin2 & Hblanks2 & Hname & Hout2).
  apply read_comment_inv in Hcomment as (lines & Hin3 & Hlines & Hcomment & Hout3).
  cbn [print stdin stdout] in Hin3, Hout3. rewrite decide_True in Hcomment by done.
  split; [done|]. split; [done|]. exists blanks1, blanks2, lines.
  unfold answers, prompts. rewrite Hin1, Hin2, Hin3, Hout3, Hout2, Hout1.
  repeat split; try done. by rewrite <- !(assoc_L (++)).
Qed.

Lemma ask_metadata_returned_witness :
  ask_metadata {| stdin := ["7"; "Pilot"; ""]; stdout := [] |}
  = (Finished {| number := "7"; name := "Pilot"; comment := "" |},
     {| stdin := [];
        stdout := ["Episode number: "; "Episode name: "; comment_header +:+ LF; "> "] |})
  ∧ number {| number := "7"; name := "Pilot"; comment := "" |} ≠ "".
Proof.
  assert (ask_metadata {| stdin := ["7"; "Pilot"; ""]; stdout := [] |}
          = (Finished {| number := "7"; name := "Pilot"; comment := "" |},
             {| stdin := [];
                stdout := ["Episode number: "; "Episode name: ";
                           comment_header +:+ LF; "> "] |})) as Hreturn
    by reflexivity.
  split; [exact Hreturn|].
  exact (proj1 (ask_metadata_returned _ _ _ Hreturn)).
Defined.

(** X10: [ask_metadata] fails only at the end of the input: the exception
    is [EOFError], never [PostShowError], and every line of the input has
    been read. *)
Theorem ask_metadata_failed (c c' : Console) (e : MainError)
    (Hfail : ask_metadata c = (Failed e, c')) :
  e = EOFError ∧ stdin c' = [].
Proof.
  unfold ask_metadata in Hfail.
  destruct (ask_nonempty "Episode number: " (stdin c) (stdout c))
    as [[ep_num|e1] c1] eqn:Hnum.
  2:{ injection Hfail as <- <-. by apply ask_nonempty_fail in Hnum. }
  destruct (ask_nonempty "Episode name: " (stdin c1) (stdout c1))
    as [[ep_name|e2] c2] eqn:Hname.
  2:{ injection Hfail as <- <-. by apply ask_nonempty_fail in Hname. }
  destruct (read_comment "" (stdin (print comment_header c2))
              (stdout (print comment_header c2)))
    as [[ep_comment|e3] c3] eqn:Hcomment; [discriminate Hfail|].
  injection Hfail as <- <-. by apply read_comment_fail in Hcomment.
Qed.

Lemma ask_metadata_failed_witness :
  ask_metadata {| stdin := ["7"; "Pilot"; "a comment without its empty line"];
                  stdout := [] |}
  = (Failed EOFError,
     {| stdin := [];
        stdout := ["Episode number: "; "Episode name: "; comment_header +:+ LF;
                   "> "; "> "] |})
  ∧ EOFError = EOFError.
Proof.
  assert (ask_metadata {| stdin := ["7"; "Pilot"; "a comment without its empty line"];
                          stdout := [] |}
          = (Failed EOFError,
             {| stdin := [];
                stdout := ["Episode number: "; "Episode name: "; comment_header +:+ LF;
                           "> "; "> "] |})) as Hfail by reflexivity.
  split; [exact Hfail|].
  exact (proj1 (ask_metadata_failed _ _ _ Hfail)).
Defined.

(** ** Main.check_config *)

Lemma omap_nil_iff {A B : Type} (f : A → option B) (l : list A) :
  omap f l = [] ↔ ∀ x, x ∈ l → f x = None.
Proof.
  induction l as [|x l IH]; csimpl.
  - split; [by intros _ x ?%elem_of_nil | done].
  - destruct (f x) eqn:Hx.
    + split; [done|]. intros Hall. specialize (Hall x (list_elem_of_here _ _)). congruence.
    + rewrite IH. split.
      * intros Hall y [->|Hy]%elem_of_cons; [done | by apply Hall].
      * intros Hall y Hy. apply Hall. by right.
Qed.

Lemma omap_ext_in {A B : Type} (f g : A → option B) (l : list A) :
  (∀ x, x ∈ l → f x = g x) → omap f l = omap g l.
Proof.
  induction l as [|x l IH]; intros Hext; csimpl; [done|].
  rewrite (Hext x) by left. rewrite IH; [done|]. intros y Hy. apply Hext. by right.
Qed.

Lemma omap_length_le {A B : Type} (f : A → option B) (l : list A) :
  length (omap f l) ≤ length l.
Proof.
  induction l as [|x l IH]; csimpl; [done|]. destruct (f x); simpl; lia.
Qed.

Lemma elem_of_omap_intro {A B : Type} (f : A → option B) (l : list A) (x : A) (y : B) :
  x ∈ l → f x = Some y → y ∈ omap f l.
Proof. intros Hx Hy. apply list_elem_of_omap. by exists x. Qed.

Lemma text_key_errors_nil (section : string) (so : gmap string string) :
  text_key_errors section so = []
  ↔ ∀ key, key ∈ REQUIRED_TEXT_KEYS → is_Some (so !! key).
Proof.
  unfold text_key_errors. rewrite omap_nil_iff.
  split; intros Hall key Hkey; specialize (Hall key Hkey); by destruct (so !! key).
Qed.

Lemma bool_key_errors_nil (section : string) (so : gmap string string) :
  bool_key_errors section so = []
  ↔ ∀ key, key ∈ REQUIRED_BOOL_KEYS → so !! key = Some "True" ∨ so !! key = Some "False".
Proof.
  unfold bool_key_errors. rewrite omap_nil_iff.
  split; intros Hall key Hkey; specialize (Hall key Hkey);
    destruct (so !! key) as [value|]; try done.
  - case_bool_decide as Hv; [|done].
    apply elem_of_cons in Hv as [->|Hv]; [by left|].
    apply list_elem_of_singleton in Hv as ->. by right.
  - rewrite bool_decide_eq_true_2; [done|].
    destruct Hall as [[= ->]|[= ->]]; [left | right; left].
  - by destruct Hall.
Qed.

Lemma section_errors_nil (config : ConfigParser) (section : string) :
  section ≠ "DEFAULT" →
  section_errors config section = [] ↔ section_ok (section_proxy config section).
Proof.
  intros Hsection. unfold section_errors, section_ok. rewrite decide_False by done.
  rewrite <- text_key_errors_nil, <- bool_key_errors_nil. cbn zeta.
  split.
  - by intros [? ?]%app_eq_nil.
  - by intros [-> ->].
Qed.

Lemma bind_nil_iff {A B : Type} (f : A → list B) (l : list A) :
  l ≫= f = [] ↔ ∀ x, x ∈ l → f x = [].
Proof.
  induction l as [|x l IH]; csimpl.
  - split; [by intros _ x ?%elem_of_nil | done].
  - split.
    + intros [Hx Hl]%app_eq_nil y [->|Hy]%elem_of_cons; [done|].
      by apply IH.
    + intros Hall. rewrite (Hall x) by left. simpl. apply IH.
      intros y Hy. apply Hall. by right.
Qed.

Lemma config_errors_nil (config : ConfigParser) :
  config_errors config = [] ↔ config_ok config.
Proof.
  unfold config_errors, config_ok. rewrite bind_nil_iff. split.
  - intros Hall section Hin Hne. apply section_errors_nil; [done|]. by apply Hall.
  - intros Hok section Hin. destruct (decide (section = "DEFAULT")) as [->|Hne].
    + done.
    + apply section_errors_nil; [done|]. by apply Hok.
Qed.

(** X11: [check_config] returns the configuration exactly when every
    section other than [DEFAULT] shows the nine text keys and shows the
    three boolean keys with the value [True] or [False], options of
    [DEFAULT] standing in for options a section lacks; otherwise it raises
    [PostShowError] with the errors joined by a semicolon and a line
    feed. *)
Theorem check_config_accepts (config : ConfigParser) :
  (config_ok config → check_config config = Finished config)
  ∧ (¬ config_ok config →
     check_config config
     = Failed (PostShowError (join (";" +:+ LF) (config_errors config))))
  ∧ (check_config config = Finished config → config_ok config).
Proof.
  unfold check_config. cbn zeta. split; [|split].
  - intros Hok%config_errors_nil. by rewrite Hok.
  - intros Hnok. rewrite decide_True; [done|].
    destruct (config_errors config) eqn:Herrors; simpl; [|lia].
    destruct Hnok. by apply config_errors_nil.
  - destruct (config_errors config) eqn:Herrors; simpl.
    + intros _. by apply config_errors_nil.
    + intros H. discriminate H.
Qed.

Example check_config_one_profile : check_config one_profile = Finished one_profile.
Proof. reflexivity. Qed.

Example check_config_one_broken_profile :
  check_config one_broken_profile
  = Failed (PostShowError
              (missing_key_error "default" "bitrate" +:+ ";" +:+ LF
               +:+ boolean_error "default" "write_date")).
Proof. reflexivity. Qed.

(** A file without sections passes, whatever [DEFAULT] holds. *)
Example check_config_no_section :
  check_config {| defaults := {[ "write_date" := "perhaps" ]}; sections := [] |}
  = Finished {| defaults := {[ "write_date" := "perhaps" ]}; sections := [] |}.
Proof. reflexivity. Qed.

Lemma bind_ext_in {A B : Type} (f g : A → list B) (l : list A) :
  (∀ x, x ∈ l → f x = g x) → l ≫= f = l ≫= g.
Proof.
  induction l as [|x l IH]; intros Hext; csimpl; [done|].
  rewrite (Hext x) by left. rewrite IH; [done|]. intros y Hy. apply Hext. by right.
Qed.

(** X12: [check_config] looks at the text keys only for their presence
    and at the boolean keys only for their value: two configurations with
    the same sections that show the same text keys and the same values of
    the boolean keys get the same list of errors, so one passes exactly
    when the other does.  An empty title or file name passes like any
    other. *)
Theorem check_config_reads (c1 c2 : ConfigParser)
    (Hnames : section_names c1 = section_names c2)
    (Htext : ∀ section key, key ∈ REQUIRED_TEXT_KEYS →
       (section_proxy c1 section !! key = None ↔ section_proxy c2 section !! key = None))
    (Hbool : ∀ section key, key ∈ REQUIRED_BOOL_KEYS →
       section_proxy c1 section !! key = section_proxy c2 section !! key) :
  config_errors c1 = config_errors c2
  ∧ (check_config c1 = Finished c1 ↔ check_config c2 = Finished c2).
Proof.
  assert (config_errors c1 = config_errors c2) as Herrors.
  { unfold config_errors. rewrite Hnames. apply bind_ext_in. intros section _.
    unfold section_errors.
    destruct (decide (section = "DEFAULT")); [done|]. cbn zeta. f_equal.
    - apply omap_ext_in. intros key Hkey. specialize (Htext section key Hkey).
      destruct (section_proxy c1 section !! key), (section_proxy c2 section !! key);
        try done.
      + by pose proof (proj2 Htext eq_refl).
      + by pose proof (proj1 Htext eq_refl).
    - apply omap_ext_in. intros key Hkey. by rewrite (Hbool section key Hkey). }
  split; [done|]. unfold check_config. cbn zeta. rewrite Herrors.
  destruct (decide (0 < length (config_errors c2))); split; intros H;
    try discriminate H; done.
Qed.

Lemma check_config_reads_witness :
  section_names one_profile = section_names one_titled_profile
  ∧ config_errors one_profile = config_errors one_titled_profile.
Proof.
  split; [reflexivity|].
  refine (proj1 (check_config_reads one_profile one_titled_profile eq_refl _ _)).
  - intros section. unfold section_proxy, own_options. simpl.
    destruct (decide (section = "DEFAULT")); [done|].
    case_bool_decide; [|done].
    apply Forall_forall. unfold REQUIRED_TEXT_KEYS.
    repeat (apply Forall_cons_2; [vm_compute; split; intros Hnone; discriminate Hnone|]).
    apply Forall_nil_2.
  - intros section. unfold section_proxy, own_options. simpl.
    destruct (decide (section = "DEFAULT")); [done|].
    case_bool_decide; [|done].
    apply Forall_forall. unfold REQUIRED_BOOL_KEYS.
    repeat (apply Forall_cons_2; [vm_compute; reflexivity|]).
    apply Forall_nil_2.
Defined.

Lemma elem_of_bind_intro {A B : Type} (f : A → list B) (l : list A) (x : A) (y : B) :
  x ∈ l → y ∈ f x → y ∈ l ≫= f.
Proof. intros Hx Hy. apply list_elem_of_bind. by exists x. Qed.

Lemma section_errors_length (config : ConfigParser) (section : string) :
  length (section_errors config section) ≤ 12.
Proof.
  unfold section_errors. destruct (decide (section = "DEFAULT")); [simpl; lia|].
  cbn zeta. rewrite length_app. unfold text_key_errors, bool_key_errors.
  match goal with
  | |- length (omap ?f ?l) + length (omap ?g ?k) ≤ _ =>
      pose proof (omap_length_le f l) as Htext;
      pose proof (omap_length_le g k) as Hbool
  end.
  change (length REQUIRED_TEXT_KEYS) with 9 in Htext.
  change (length REQUIRED_BOOL_KEYS) with 3 in Hbool. lia.
Qed.

Lemma bind_length_le {A B : Type} (f : A → list B) (l : list A) (n : nat) :
  (∀ x, length (f x) ≤ n) → length (l ≫= f) ≤ n * length l.
Proof.
  intros Hf. induction l as [|x l IH]; csimpl; [lia|].
  rewrite length_app. pose proof (Hf x). lia.
Qed.

(** X13: [check_config] reports every problem, not the first one only:
    for every section other than [DEFAULT], the list of errors holds the
    missing-key message for each required key the section does not show,
    and the boolean message for each boolean key it shows with a value
    other than [True] and [False]; and it holds at most twelve errors per
    section. *)
Theorem check_config_reports (config : ConfigParser) :
  (∀ section key,
     section ∈ section_names config → section ≠ "DEFAULT" →
     key ∈ REQUIRED_TEXT_KEYS ++ REQUIRED_BOOL_KEYS →
     section_proxy config section !! key = None →
     missing_key_error section key ∈ config_errors config)
  ∧ (∀ section key value,
       section ∈ section_names config → section ≠ "DEFAULT" →
       key ∈ REQUIRED_BOOL_KEYS →
       section_proxy config section !! key = Some value →
       value ≠ "True" → value ≠ "False" →
       boolean_error section key ∈ config_errors config)
  ∧ length (config_errors config) ≤ 12 * length (sections config).
Proof.
  split; [|split].
  - intros section key Hsection Hne Hkey Hmissing.
    apply (elem_of_bind_intro _ _ section); [done|].
    unfold section_errors. rewrite decide_False by done. cbn zeta.
    apply elem_of_app. apply elem_of_app in Hkey as [Hkey|Hkey]; [left | right].
    + apply (elem_of_omap_intro _ _ key); [done|]. by rewrite Hmissing.
    + apply (elem_of_omap_intro _ _ key); [done|]. by rewrite Hmissing.
  - intros section key value Hsection Hne Hkey Hvalue Htrue Hfalse.
    apply (elem_of_bind_intro _ _ section); [done|].
    unfold section_errors. rewrite decide_False by done. cbn zeta.
    apply elem_of_app. right.
    apply (elem_of_omap_intro _ _ key); [done|]. rewrite Hvalue.
    rewrite bool_decide_eq_false_2; [done|].
    intros [->|Hrest]%elem_of_cons; [done|].
    apply elem_of_cons in Hrest as [->|Hrest]; [done|]. by apply elem_of_nil in Hrest.
  - unfold config_errors, section_names.
    change (("DEFAULT" :: (sections config).*1) ≫= section_errors config)
      with (section_errors config "DEFAULT" ++ (sections config).*1 ≫= section_errors config).
    unfold section_errors at 1. rewrite decide_True by done. rewrite app_nil_l.
    rewrite <- (length_fmap fst (sections config)).
    apply bind_length_le, section_errors_length.
Qed.

(** ** Main.parse_args *)

(** X14: the checks of [parse_args] return the arguments as they are
    exactly when the configuration file and the WAV file exist, the marker
    file exists if one is named, and [mkdir] of the output directory
    succeeds or fails because the directory exists; otherwise they raise
    [PostShowError].  Either way the file system is left as [mkdir] left
    it: the output directory is made before the arguments are
    rejected. *)
Theorem parse_args_accepts {O : OS} (args : Namespace) (fs : filesystem) :
  (args_ok args fs → (parse_args args fs).1 = Finished args)
  ∧ (¬ args_ok args fs → ∃ msg, (parse_args args fs).1 = Failed (PostShowError msg))
  ∧ (parse_args args fs).2 = (os_mkdir fs (outdir args)).2.
Proof.
  unfold parse_args, args_ok.
  destruct (os_mkdir fs (outdir args)) as [raised fs'] eqn:Hmkdir. cbn [fst snd].
  destruct (os_path_exists fs (config args)) eqn:Hconfig;
    destruct (os_path_exists fs (wav args)) eqn:Hwav;
    destruct (markers args) as [path|] eqn:Hmarkers;
    try destruct (os_path_exists fs path) eqn:Hpath;
    destruct raised as [e|]; try destruct (decide (errno e ≠ EEXIST)) as [He|He];
    cbn [negb app length];
    repeat match goal with
      | |- context [decide (0 < ?n)] => destruct (decide (0 < n)) as [Hlen|Hlen];
          simpl in Hlen; try lia
      end; cbn [fst snd];
    (split; [|split; [|reflexivity]]);
    try (intros (H1 & H2 & H3 & H4); exfalso;
         first [ discriminate H1 | discriminate H2
               | by (specialize (H3 _ eq_refl); congruence)
               | by (specialize (H4 _ eq_refl)) ]);
    try (intros _; reflexivity);
    try (intros _; eexists; reflexivity);
    try (intros Hnot; exfalso; apply Hnot; repeat split; try done;
         first [ by intros ? [= <-] | by intros ? [= <-]; apply dec_stable ]).
Qed.

(** The output directory is made, the arguments are returned. *)
Example parse_args_makes_outdir :
  parse_args (O := FlatOS) show_args show_files
  = (Finished show_args, {[ "out" ]} ∪ show_files).
Proof. vm_compute. reflexivity. Qed.

(** An output directory that exists is no error. *)
Example parse_args_existing_outdir :
  parse_args (O := FlatOS) show_args ({[ "out" ]} ∪ show_files)
  = (Finished show_args, {[ "out" ]} ∪ show_files).
Proof. vm_compute. reflexivity. Qed.

(** Without its files the command line is rejected, with both messages,
    and the output directory is made all the same. *)
Example parse_args_missing_files :
  parse_args (O := FlatOS) show_args ∅
  = (Failed (PostShowError
               (config_missing "postshow.ini" +:+ ";" +:+ LF +:+ wav_missing "show.wav")),
     {[ "out" ]} ∪ ∅).
Proof. vm_compute. reflexivity. Qed.
